(** * health-translate: the speech capture, translation and playback page

    A shallow embedding of [static/main.js].  The script keeps one global
    ([finalTranscript]), reads and writes a handful of DOM properties and
    talks to three providers: the browser's speech recognition, the
    [/translate] endpoint and the browser's speech synthesis.  The page is
    single threaded: every handler runs to completion (or to its first
    [await]) before the next event is dispatched, so the program is a
    transition function on an explicit [State]. *)

From Stdlib Require Import String Ascii NArith ZArith.
From stdpp Require Import base decidable list.

Local Open Scope N_scope.

(** ** JavaScript strings

    A JavaScript string is a sequence of UTF-16 code units. *)

Definition jsstring : Type := list N.

(** A literal of the source (all of them are ASCII). *)
Definition lit (s : string) : jsstring :=
  map N_of_ascii (list_ascii_of_string s).
Arguments lit s%_string.

(** [WhiteSpace] and [LineTerminator] of ECMAScript, the code points
    [String.prototype.trim] strips.  All of them are single code units. *)
Definition white_space_code_units : list N :=
  [ 0x0009; 0x000A; 0x000B; 0x000C; 0x000D; 0x0020; 0x00A0; 0x1680;
    0x2000; 0x2001; 0x2002; 0x2003; 0x2004; 0x2005; 0x2006; 0x2007;
    0x2008; 0x2009; 0x200A; 0x2028; 0x2029; 0x202F; 0x205F; 0x3000;
    0xFEFF ].

Definition isWhiteSpace (c : N) : bool :=
  existsb (N.eqb c) white_space_code_units.

Fixpoint trimStart (s : jsstring) : jsstring :=
  match s with
  | [] => []
  | c :: r => if isWhiteSpace c then trimStart r else s
  end.

Definition trimEnd (s : jsstring) : jsstring := rev (trimStart (rev s)).

(** [s.trim()] *)
Definition trim (s : jsstring) : jsstring := trimEnd (trimStart s).

(** What a textarea hands back for a value written to it: every CR LF
    pair and every other CR has become one LF. *)
Fixpoint normalize_newlines (s : jsstring) : jsstring :=
  match s with
  | [] => []
  | c :: r =>
      if c =? 0x000D then
        0x000A :: match r with
                  | [] => []
                  | c' :: r' =>
                      if c' =? 0x000A then normalize_newlines r' else normalize_newlines r
                  end
      else c :: normalize_newlines r
  end.

(** [s.startsWith(p)] *)
Fixpoint startsWith (s p : jsstring) : bool :=
  match p, s with
  | [], _ => true
  | _ :: _, [] => false
  | a :: p', b :: s' => (a =? b) && startsWith s' p'
  end.

(** ** Values

    The values the script's expressions can take: a string, [undefined]
    (a property that is not there), or one of the functions and objects
    every object literal inherits from [Object.prototype], named by the
    property it is found under. *)

Inductive Value : Type :=
  | VUndefined
  | VString (s : jsstring)
  | VInherited (name : jsstring).

(** [ToBoolean]: the empty string and [undefined] are falsy; functions and
    objects are truthy. *)
Definition truthy (v : Value) : bool :=
  match v with
  | VUndefined => false
  | VString [] => false
  | VString (_ :: _) => true
  | VInherited _ => true
  end.

(** [a || b] *)
Definition or_else (a b : Value) : Value := if truthy a then a else b.

(** [ToString], as string concatenation applies it.  A built-in function
    prints as its native source text under its own name ([Object] for the
    one found under [constructor]), [Object.prototype] itself as
    [[object Object]]. *)
Definition toString (v : Value) : jsstring :=
  match v with
  | VUndefined => lit "undefined"
  | VString s => s
  | VInherited name =>
      if bool_decide (name = lit "__proto__") then lit "[object Object]"
      else if bool_decide (name = lit "constructor") then
        lit "function Object() { [native code] }"
      else lit "function " ++ name ++ lit "() { [native code] }"
  end.

(** The property names an object literal inherits from
    [Object.prototype]. *)
Definition Object_prototype_properties : list jsstring :=
  [ lit "constructor"; lit "hasOwnProperty"; lit "isPrototypeOf";
    lit "propertyIsEnumerable"; lit "toLocaleString"; lit "toString";
    lit "valueOf"; lit "__proto__"; lit "__defineGetter__";
    lit "__defineSetter__"; lit "__lookupGetter__"; lit "__lookupSetter__" ].

(** An object literal with string values: its own properties, in source
    order. *)
Definition ObjectLiteral : Type := list (jsstring * jsstring).

Fixpoint own_property (o : ObjectLiteral) (key : jsstring) : option jsstring :=
  match o with
  | [] => None
  | (k, v) :: o' => if bool_decide (k = key) then Some v else own_property o' key
  end.

(** [o[key]]: an own property first, then the prototype. *)
Definition get (o : ObjectLiteral) (key : jsstring) : Value :=
  match own_property o key with
  | Some v => VString v
  | None =>
      if bool_decide (key ∈ Object_prototype_properties) then VInherited key
      else VUndefined
  end.

(** ** The two language tables (main.js, lines 74-83 and 122-125) *)

Definition mapLangCode_map : ObjectLiteral :=
  [ (lit "en", lit "en-US");
    (lit "es", lit "es-ES");
    (lit "hi", lit "hi-IN");
    (lit "ta", lit "ta-IN");
    (lit "auto", lit "en-US") ].

Definition mapLangCode (code : jsstring) : Value :=
  or_else (get mapLangCode_map code) (VString (lit "en-US")).

Definition mapLocaleFromCode_m : ObjectLiteral :=
  [ (lit "en", lit "en"); (lit "es", lit "es");
    (lit "hi", lit "hi"); (lit "ta", lit "ta") ].

Definition mapLocaleFromCode (code : jsstring) : Value :=
  or_else (get mapLocaleFromCode_m code) (VString (lit "en")).

(** ** Data exchanged with the providers *)

(** One entry of [event.results]: [results[i][0].transcript] and
    [results[i].isFinal]. *)
Record Result : Type := {
  transcript : jsstring;
  isFinal : bool
}.

(** The event a recognition update carries. *)
Record RecognitionEvent : Type := {
  resultIndex : nat;
  results : list Result
}.

(** The body of the POST to [/translate]. *)
Record TranslateRequest : Type := {
  req_text : jsstring;
  req_source : jsstring;
  req_target : jsstring
}.

(** The parsed body of a translation response.  The service answers
    [{translated}] or [{error, detail?}], every field a string; [None] is
    a field that is not there. *)
Record ResponseBody : Type := {
  error : option jsstring;
  detail : option jsstring;
  translated : option jsstring
}.

(** [j.field] *)
Definition field (f : option jsstring) : Value :=
  match f with
  | Some s => VString s
  | None => VUndefined
  end.

(** How the two awaits of [sendForTranslation] settle: with a parsed body,
    or with [fetch] or [resp.json()] rejecting; [err] is the thrown value
    as string concatenation prints it. *)
Inductive FetchOutcome : Type :=
  | Body (j : ResponseBody)
  | Rejected (err : jsstring).

Record Voice : Type := {
  voiceURI : jsstring;
  voice_lang : jsstring
}.

Record Utterance : Type := {
  utter_text : jsstring;
  utter_voice : option Voice;
  utter_rate : Z
}.

(** The recognition object: the properties the script sets. *)
Record SpeechRecognition : Type := {
  rec_lang : Value;            (* what was assigned to recognition.lang *)
  interimResults : bool;
  continuous : bool
}.

(** [window.speechSynthesis]: the voices it reports and its queue of
    utterances; the head of the queue is the one being spoken. *)
Record SpeechSynthesis : Type := {
  voices : list Voice;
  queue : list Utterance
}.

(** Calls that leave the script, in the order they are made. *)
Inductive Effect : Type :=
  | CallRecognitionStart
  | CallRecognitionStop
  | CallFetch (r : TranslateRequest)
  | CallSynthesisCancel
  | CallSynthesisSpeak (u : Utterance)
  | CallAlert (msg : jsstring)
  | CallConsoleError.

(** ** The state of the page *)

Record State : Type := {
  finalTranscript : jsstring;             (* let finalTranscript *)
  origArea_value : jsstring;              (* origArea.value *)
  translatedDiv_textContent : jsstring;   (* translatedDiv.textContent *)
  sourceLang_value : jsstring;            (* sourceLang.value *)
  targetLang_value : jsstring;            (* targetLang.value *)
  startBtn_disabled : bool;
  stopBtn_disabled : bool;
  playBtn_disabled : bool;
  recognition : option SpeechRecognition; (* null without the Web Speech API *)
  speechSynthesis : option SpeechSynthesis; (* "speechSynthesis" in window *)
  pending : nat;              (* sendForTranslation calls waiting at an await *)
  effects : list Effect
}.

Definition set_finalTranscript (v : jsstring) (st : State) : State :=
  {| finalTranscript := v;
     origArea_value := origArea_value st;
     translatedDiv_textContent := translatedDiv_textContent st;
     sourceLang_value := sourceLang_value st;
     targetLang_value := targetLang_value st;
     startBtn_disabled := startBtn_disabled st;
     stopBtn_disabled := stopBtn_disabled st;
     playBtn_disabled := playBtn_disabled st;
     recognition := recognition st;
     speechSynthesis := speechSynthesis st;
     pending := pending st;
     effects := effects st |}.

Definition set_origArea_value (v : jsstring) (st : State) : State :=
  {| finalTranscript := finalTranscript st;
     origArea_value := v;
     translatedDiv_textContent := translatedDiv_textContent st;
     sourceLang_value := sourceLang_value st;
     targetLang_value := targetLang_value st;
     startBtn_disabled := startBtn_disabled st;
     stopBtn_disabled := stopBtn_disabled st;
     playBtn_disabled := playBtn_disabled st;
     recognition := recognition st;
     speechSynthesis := speechSynthesis st;
     pending := pending st;
     effects := effects st |}.

Definition set_translatedDiv_textContent (v : jsstring) (st : State) : State :=
  {| finalTranscript := finalTranscript st;
     origArea_value := origArea_value st;
     translatedDiv_textContent := v;
     sourceLang_value := sourceLang_value st;
     targetLang_value := targetLang_value st;
     startBtn_disabled := startBtn_disabled st;
     stopBtn_disabled := stopBtn_disabled st;
     playBtn_disabled := playBtn_disabled st;
     recognition := recognition st;
     speechSynthesis := speechSynthesis st;
     pending := pending st;
     effects := effects st |}.

Definition set_sourceLang_value (v : jsstring) (st : State) : State :=
  {| finalTranscript := finalTranscript st;
     origArea_value := origArea_value st;
     translatedDiv_textContent := translatedDiv_textContent st;
     sourceLang_value := v;
     targetLang_value := targetLang_value st;
     startBtn_disabled := startBtn_disabled st;
     stopBtn_disabled := stopBtn_disabled st;
     playBtn_disabled := playBtn_disabled st;
     recognition := recognition st;
     speechSynthesis := speechSynthesis st;
     pending := pending st;
     effects := effects st |}.

Definition set_targetLang_value (v : jsstring) (st : State) : State :=
  {| finalTranscript := finalTranscript st;
     origArea_value := origArea_value st;
     translatedDiv_textContent := translatedDiv_textContent st;
     sourceLang_value := sourceLang_value st;
     targetLang_value := v;
     startBtn_disabled := startBtn_disabled st;
     stopBtn_disabled := stopBtn_disabled st;
     playBtn_disabled := playBtn_disabled st;
     recognition := recognition st;
     speechSynthesis := speechSynthesis st;
     pending := pending st;
     effects := effects st |}.

Definition set_startBtn_disabled (v : bool) (st : State) : State :=
  {| finalTranscript := finalTranscript st;
     origArea_value := origArea_value st;
     translatedDiv_textContent := translatedDiv_textContent st;
     sourceLang_value := sourceLang_value st;
     targetLang_value := targetLang_value st;
     startBtn_disabled := v;
     stopBtn_disabled := stopBtn_disabled st;
     playBtn_disabled := playBtn_disabled st;
     recognition := recognition st;
     speechSynthesis := speechSynthesis st;
     pending := pending st;
     effects := effects st |}.

Definition set_stopBtn_disabled (v : bool) (st : State) : State :=
  {| finalTranscript := finalTranscript st;
     origArea_value := origArea_value st;
     translatedDiv_textContent := translatedDiv_textContent st;
     sourceLang_value := sourceLang_value st;
     targetLang_value := targetLang_value st;
     startBtn_disabled := startBtn_disabled st;
     stopBtn_disabled := v;
     playBtn_disabled := playBtn_disabled st;
     recognition := recognition st;
     speechSynthesis := speechSynthesis st;
     pending := pending st;
     effects := effects st |}.

Definition set_playBtn_disabled (v : bool) (st : State) : State :=
  {| finalTranscript := finalTranscript st;
     origArea_value := origArea_value st;
     translatedDiv_textContent := translatedDiv_textContent st;
     sourceLang_value := sourceLang_value st;
     targetLang_value := targetLang_value st;
     startBtn_disabled := startBtn_disabled st;
     stopBtn_disabled := stopBtn_disabled st;
     playBtn_disabled := v;
     recognition := recognition st;
     speechSynthesis := speechSynthesis st;
     pending := pending st;
     effects := effects st |}.

Definition set_recognition (v : option SpeechRecognition) (st : State) : State :=
  {| finalTranscript := finalTranscript st;
     origArea_value := origArea_value st;
     translatedDiv_textContent := translatedDiv_textContent st;
     sourceLang_value := sourceLang_value st;
     targetLang_value := targetLang_value st;
     startBtn_disabled := startBtn_disabled st;
     stopBtn_disabled := stopBtn_disabled st;
     playBtn_disabled := playBtn_disabled st;
     recognition := v;
     speechSynthesis := speechSynthesis st;
     pending := pending st;
     effects := effects st |}.

Definition set_speechSynthesis (v : option SpeechSynthesis) (st : State) : State :=
  {| finalTranscript := finalTranscript st;
     origArea_value := origArea_value st;
     translatedDiv_textContent := translatedDiv_textContent st;
     sourceLang_value := sourceLang_value st;
     targetLang_value := targetLang_value st;
     startBtn_disabled := startBtn_disabled st;
     stopBtn_disabled := stopBtn_disabled st;
     playBtn_disabled := playBtn_disabled st;
     recognition := recognition st;
     speechSynthesis := v;
     pending := pending st;
     effects := effects st |}.

Definition set_pending (v : nat) (st : State) : State :=
  {| finalTranscript := finalTranscript st;
     origArea_value := origArea_value st;
     translatedDiv_textContent := translatedDiv_textContent st;
     sourceLang_value := sourceLang_value st;
     targetLang_value := targetLang_value st;
     startBtn_disabled := startBtn_disabled st;
     stopBtn_disabled := stopBtn_disabled st;
     playBtn_disabled := playBtn_disabled st;
     recognition := recognition st;
     speechSynthesis := speechSynthesis st;
     pending := v;
     effects := effects st |}.

(** [origArea.value = v]; the field holds what [origArea.value] reads. *)
Definition origArea_assign (v : jsstring) (st : State) : State :=
  set_origArea_value (normalize_newlines v) st.

(** Record one more outgoing call. *)
Definition emit (e : Effect) (st : State) : State :=
  {| finalTranscript := finalTranscript st;
     origArea_value := origArea_value st;
     translatedDiv_textContent := translatedDiv_textContent st;
     sourceLang_value := sourceLang_value st;
     targetLang_value := targetLang_value st;
     startBtn_disabled := startBtn_disabled st;
     stopBtn_disabled := stopBtn_disabled st;
     playBtn_disabled := playBtn_disabled st;
     recognition := recognition st;
     speechSynthesis := speechSynthesis st;
     pending := pending st;
     effects := effects st ++ [e] |}.

(** ** The handlers of main.js *)

(** The placeholder shown while a translation is awaited. *)
Definition working_placeholder : jsstring := lit "Translating...".

(** [sendForTranslation] up to its first [await] (lines 86-93): the
    placeholder, the playback control, and the request. *)
Definition sendForTranslation_begin (text : jsstring) (st : State) : State :=
  let st := set_translatedDiv_textContent working_placeholder st in
  let st := set_playBtn_disabled true st in
  let st := emit (CallFetch {| req_text := text;
                               req_source := sourceLang_value st;
                               req_target := targetLang_value st |}) st in
  set_pending (S (pending st)) st.

(** [sendForTranslation] from the point where its awaits settle (lines
    94-103).  Nothing local to the call is read there, so the continuation
    is the same for every call. *)
Definition sendForTranslation_resume (o : FetchOutcome) (st : State) : State :=
  let st := set_pending (Nat.pred (pending st)) st in
  match o with
  | Body j =>
      if truthy (field (error j)) then
        set_translatedDiv_textContent
          (lit "Error: " ++ toString (or_else (field (detail j)) (field (error j)))) st
      else
        let st := set_translatedDiv_textContent
                    (toString (or_else (field (translated j))
                                       (VString (lit "(no translation)")))) st in
        set_playBtn_disabled false st
  | Rejected err =>
      set_translatedDiv_textContent (lit "Network error: " ++ err) st
  end.

(** A whole call, when nothing else is dispatched while it waits. *)
Definition sendForTranslation (text : jsstring) (o : FetchOutcome) (st : State) : State :=
  sendForTranslation_resume o (sendForTranslation_begin text st).

(** One turn of the loop of [recognition.onresult] (lines 26-31), on the
    pair of [finalTranscript] and the local [interim]. *)
Definition onresult_step (acc : jsstring * jsstring) (r : Result) : jsstring * jsstring :=
  if isFinal r then (acc.1 ++ (transcript r ++ lit " "), acc.2)
  else (acc.1, acc.2 ++ transcript r).

(** The loop, from [i = event.resultIndex] to [event.results.length]. *)
Definition onresult_loop (ev : RecognitionEvent) (ft : jsstring) : jsstring * jsstring :=
  fold_left onresult_step (drop (resultIndex ev) (results ev)) (ft, []).

(** [recognition.onresult] (lines 23-34) *)
Definition recognition_onresult (ev : RecognitionEvent) (st : State) : State :=
  let '(ft, interim) := onresult_loop ev (finalTranscript st) in
  let st := set_finalTranscript ft st in
  origArea_assign (trim (finalTranscript st ++ interim)) st.

(** [recognition.onerror] (lines 36-38) *)
Definition recognition_onerror (st : State) : State := emit CallConsoleError st.

(** [recognition.onend] (lines 40-47) *)
Definition recognition_onend (st : State) : State :=
  let st := set_startBtn_disabled false st in
  let st := set_stopBtn_disabled true st in
  if truthy (VString (trim (origArea_value st))) then
    sendForTranslation_begin (trim (origArea_value st)) st
  else st.

(** [startBtn.onclick] (lines 53-61).  With [recognition] still [null] the
    assignment to [recognition.lang] throws and the handler stops there.
    [start()] itself succeeds: the control that runs this handler is
    enabled only while no capture is running. *)
Definition startBtn_onclick (st : State) : State :=
  let st := set_finalTranscript [] st in
  let st := origArea_assign [] st in
  let st := set_translatedDiv_textContent working_placeholder st in
  match recognition st with
  | None => st
  | Some r =>
      let st := set_recognition
                  (Some {| rec_lang := or_else (mapLangCode (sourceLang_value st))
                                               (VString (lit "en-US"));
                           interimResults := interimResults r;
                           continuous := continuous r |}) st in
      let st := emit CallRecognitionStart st in
      let st := set_startBtn_disabled true st in
      set_stopBtn_disabled false st
  end.

(** [stopBtn.onclick] (lines 63-66); [recognition.stop()] throws on
    [null]. *)
Definition stopBtn_onclick (st : State) : State :=
  match recognition st with
  | None => st
  | Some _ =>
      let st := emit CallRecognitionStop st in
      set_stopBtn_disabled true st
  end.

(** The voice [speakText] picks (lines 112-116): the first one whose
    [lang] is not empty and starts with the locale prefix. *)
Definition find_voice (vs : list Voice) (lang : jsstring) : option Voice :=
  find (fun x => truthy (VString (voice_lang x))
                 && startsWith (voice_lang x) (toString (mapLocaleFromCode lang))) vs.

(** The synthesis provider: [cancel] empties its queue, [speak] adds to
    the end of it.  Without the provider neither is ever called. *)
Definition speechSynthesis_cancel (st : State) : State :=
  let st := emit CallSynthesisCancel st in
  match speechSynthesis st with
  | Some synth => set_speechSynthesis (Some {| voices := voices synth; queue := [] |}) st
  | None => st
  end.

Definition speechSynthesis_speak (u : Utterance) (st : State) : State :=
  let st := emit (CallSynthesisSpeak u) st in
  match speechSynthesis st with
  | Some synth =>
      set_speechSynthesis (Some {| voices := voices synth; queue := queue synth ++ [u] |}) st
  | None => st
  end.

(** [speakText] (lines 106-120) *)
Definition speakText (text lang : jsstring) (st : State) : State :=
  match speechSynthesis st with
  | None => emit (CallAlert (lit "SpeechSynthesis not supported in this browser.")) st
  | Some synth =>
      let utter := {| utter_text := text;
                      utter_voice := find_voice (voices synth) lang;
                      utter_rate := 1%Z |} in
      let st := speechSynthesis_cancel st in
      speechSynthesis_speak utter st
  end.

(** [playBtn.onclick] (lines 68-72) *)
Definition playBtn_onclick (st : State) : State :=
  let t := or_else (VString (translatedDiv_textContent st)) (VString []) in
  if negb (truthy t) then st
  else speakText (toString t) (targetLang_value st) st.

(** The top level of the script (lines 10-51), run once on the page as
    the markup leaves it. *)
Definition main_js (supportsSpeech : bool) (page : State) : State :=
  let st := set_finalTranscript [] (set_recognition None page) in
  if supportsSpeech then
    set_recognition (Some {| rec_lang := VString [];
                             interimResults := true;
                             continuous := true |}) st
  else
    let st := set_startBtn_disabled true st in
    emit (CallAlert (lit "Sorry " ++ [0x2014] ++
                     lit " your browser doesn't support the Web Speech API. Use Chrome on desktop or Android/iOS Chrome.")) st.

(** ** Events and their dispatch *)

Inductive Event : Type :=
  | ClickStart
  | ClickStop
  | ClickPlay
  | RecognitionResult (ev : RecognitionEvent)
  | RecognitionError
  | RecognitionEnd
  | TranslationSettled (o : FetchOutcome)
  | SelectSource (code : jsstring)
  | SelectTarget (code : jsstring)
  | EditOrig (text : jsstring)
  | VoicesChanged (vs : list Voice)
  | UtteranceEnd.

(** The handlers of the recognition object exist only when it does. *)
Definition when_recognition (h : State -> State) (st : State) : State :=
  match recognition st with
  | Some _ => h st
  | None => st
  end.

(** One event.  A disabled control receives no click; a settlement needs a
    call that waits for it; the user may change either selector and edit
    the transcript area; the synthesis provider may report other voices
    and finishes the utterance at the head of its queue. *)
Definition dispatch (st : State) (e : Event) : State :=
  match e with
  | ClickStart => if startBtn_disabled st then st else startBtn_onclick st
  | ClickStop => if stopBtn_disabled st then st else stopBtn_onclick st
  | ClickPlay => if playBtn_disabled st then st else playBtn_onclick st
  | RecognitionResult ev => when_recognition (recognition_onresult ev) st
  | RecognitionError => when_recognition recognition_onerror st
  | RecognitionEnd => when_recognition recognition_onend st
  | TranslationSettled o =>
      match pending st with
      | O => st
      | S _ => sendForTranslation_resume o st
      end
  | SelectSource code => set_sourceLang_value code st
  | SelectTarget code => set_targetLang_value code st
  | EditOrig text => origArea_assign text st
  | VoicesChanged vs =>
      match speechSynthesis st with
      | Some synth => set_speechSynthesis (Some {| voices := vs; queue := queue synth |}) st
      | None => st
      end
  | UtteranceEnd =>
      match speechSynthesis st with
      | Some synth => set_speechSynthesis (Some {| voices := voices synth; queue := tail (queue synth) |}) st
      | None => st
      end
  end.

Definition run (st : State) (evs : list Event) : State := fold_left dispatch evs st.

(** ** Observations *)

(** The translation requests among the calls made so far. *)
Definition translation_requests (st : State) : list TranslateRequest :=
  omap (fun e => match e with CallFetch r => Some r | _ => None end) (effects st).

(** The utterances the synthesis provider holds (the head is audible). *)
Definition utterances (st : State) : list Utterance :=
  match speechSynthesis st with
  | Some synth => queue synth
  | None => []
  end.

(** The text of the final results one update hands to the loop, and of the
    non-final ones. *)
Definition final_segments (ev : RecognitionEvent) : list jsstring :=
  map transcript (filter (fun r => isFinal r = true) (drop (resultIndex ev) (results ev))).

Definition interim_segments (ev : RecognitionEvent) : list jsstring :=
  map transcript (filter (fun r => isFinal r = false) (drop (resultIndex ev) (results ev))).

(** A settlement that completes a translation successfully. *)
Definition successful (e : Event) : bool :=
  match e with
  | TranslationSettled (Body j) => negb (truthy (field (error j)))
  | _ => false
  end.

(** The updates of a capture, delivered in order. *)
Definition deliver (st : State) (updates : list RecognitionEvent) : State :=
  fold_left (fun st ev => recognition_onresult ev st) updates st.

(** What [j.f || dflt] prints as when [dflt] is a string: the field when it
    is there and not empty, [dflt] otherwise. *)
Definition value_or (f : option jsstring) (dflt : jsstring) : jsstring :=
  match f with
  | Some (c :: s) => c :: s
  | _ => dflt
  end.

(** A page to run examples on: nothing said yet, capture can start, the
    stop and playback controls are off, both providers are there. *)
Definition example_page : State :=
  main_js true
    {| finalTranscript := [];
       origArea_value := [];
       translatedDiv_textContent := [];
       sourceLang_value := lit "en";
       targetLang_value := lit "es";
       startBtn_disabled := false;
       stopBtn_disabled := true;
       playBtn_disabled := true;
       recognition := None;
       speechSynthesis := Some {| voices := [ {| voiceURI := lit "Monica"; voice_lang := lit "es-ES" |} ];
                                  queue := [] |};
       pending := 0;
       effects := [] |}.

Definition final_result (t : string) : Result := {| transcript := lit t; isFinal := true |}.
Definition interim_result (t : string) : Result := {| transcript := lit t; isFinal := false |}.
Arguments final_result t%_string.
Arguments interim_result t%_string.

(** ** Further observations *)

(** A request as [sendForTranslation] is meant to receive it: some text,
    with no white space around it. *)
Definition well_formed_request (r : TranslateRequest) : Prop :=
  req_text r ≠ [] ∧ trim (req_text r) = req_text r.

(** The number of captures that end in a run of events. *)
Definition is_capture_end (e : Event) : bool :=
  match e with RecognitionEnd => true | _ => false end.

Definition capture_ends (evs : list Event) : nat :=
  length (List.filter is_capture_end evs).

(** The calls to the recognition provider among the calls made so far. *)
Definition is_recognition_start (e : Effect) : bool :=
  match e with CallRecognitionStart => true | _ => false end.

Definition is_recognition_stop (e : Effect) : bool :=
  match e with CallRecognitionStop => true | _ => false end.

Definition recognition_starts (st : State) : nat :=
  length (List.filter is_recognition_start (effects st)).

Definition recognition_stops (st : State) : nat :=
  length (List.filter is_recognition_stop (effects st)).

(** The message of the top level when the Web Speech API is missing. *)
Definition unsupported_message : jsstring :=
  lit "Sorry " ++ [0x2014] ++
  lit " your browser doesn't support the Web Speech API. Use Chrome on desktop or Android/iOS Chrome.".

(** The test [speakText] applies to each voice (line 114). *)
Definition voice_matches (lang : jsstring) (x : Voice) : bool :=
  truthy (VString (voice_lang x))
  && startsWith (voice_lang x) (toString (mapLocaleFromCode lang)).

(** Whether the awaits of a translate call settle with a translation. *)
Definition outcome_ok (o : FetchOutcome) : bool :=
  match o with
  | Body j => negb (truthy (field (error j)))
  | Rejected _ => false
  end.



(** * Properties *)

(** ** Strings and values *)

(** Proof steps that come back in every handler: decide the test of a
    conditional, and look through the calls made to the synthesis provider. *)
Ltac case_if :=
  match goal with |- context [if ?c then _ else _] => destruct c eqn:? end.

Ltac through_speakText Hsynth :=
  unfold speakText, speechSynthesis_speak, speechSynthesis_cancel;
  cbn; rewrite ?Hsynth; cbn; rewrite ?Hsynth; cbn.

Lemma truthy_VString (s : jsstring) : truthy (VString s) = true ↔ s ≠ [].
Proof. destruct s; simpl; split; congruence. Qed.

Lemma or_else_truthy (a b : Value) : truthy b = true → truthy (or_else a b) = true.
Proof. unfold or_else. destruct (truthy a) eqn:Ha; auto. Qed.

Lemma toString_or_else_field (f : option jsstring) (dflt : jsstring) :
  toString (or_else (field f) (VString dflt)) = value_or f dflt.
Proof. destruct f as [[|c s]|]; reflexivity. Qed.


(** ** The end of a capture *)

(** C1. When a capture ends, [recognition.onend] issues exactly one
    translation request, carrying the trimmed displayed text and the source
    and target language codes selected at that moment, if the trimmed
    displayed text is not empty; it issues none if it is empty.  No other
    call leaves the script either way. *)
Theorem onend_translation_requests (st : State) :
  let text := trim (origArea_value st) in
  let request := {| req_text := text;
                    req_source := sourceLang_value st;
                    req_target := targetLang_value st |} in
  (text ≠ [] →
     translation_requests (recognition_onend st) = translation_requests st ++ [request]
     ∧ effects (recognition_onend st) = effects st ++ [CallFetch request])
  ∧ (text = [] →
     translation_requests (recognition_onend st) = translation_requests st
     ∧ effects (recognition_onend st) = effects st).
Proof.
  intros text request. unfold recognition_onend. cbn [origArea_value set_stopBtn_disabled set_startBtn_disabled].
  fold text. split; intros Htext.
  - apply truthy_VString in Htext. rewrite Htext.
    unfold sendForTranslation_begin, translation_requests. cbn.
    rewrite omap_app. split; reflexivity.
  - rewrite Htext. cbn. split; reflexivity.
Qed.

(** A capture that heard "hello" sends one request, from English to
    Spanish; a capture that heard nothing sends none. *)
Lemma onend_translation_requests_witness :
  translation_requests
    (recognition_onend (set_origArea_value (lit " hello ") example_page))
  = [ {| req_text := lit "hello"; req_source := lit "en"; req_target := lit "es" |} ]
  ∧ translation_requests (recognition_onend example_page) = [].
Proof.
  split.
  - apply (proj1 (onend_translation_requests
                    (set_origArea_value (lit " hello ") example_page))).
    vm_compute. discriminate.
  - apply (proj2 (onend_translation_requests example_page)).
    vm_compute. reflexivity.
Defined.

(** ** Recognition updates *)

Lemma fold_onresult_step (rs : list Result) (ft interim : jsstring) :
  fold_left onresult_step rs (ft, interim) =
  (ft ++ concat (map (fun t => t ++ lit " ")
                     (map transcript (filter (fun r => isFinal r = true) rs))),
   interim ++ concat (map transcript (filter (fun r => isFinal r = false) rs))).
Proof.
  revert ft interim. induction rs as [|r rs IH]; intros ft interim.
  - simpl. rewrite !app_nil_r. reflexivity.
  - cbn [fold_left]. unfold onresult_step at 2. rewrite !filter_cons.
    destruct (isFinal r) eqn:Hr; cbn [fst snd]; rewrite IH.
    + rewrite decide_True by reflexivity. rewrite decide_False by discriminate.
      simpl. rewrite <- !app_assoc. reflexivity.
    + rewrite decide_False by discriminate. rewrite decide_True by reflexivity.
      simpl. rewrite <- !app_assoc. reflexivity.
Qed.

Lemma onresult_loop_spec (ev : RecognitionEvent) (ft : jsstring) :
  onresult_loop ev ft =
  (ft ++ concat (map (fun t => t ++ lit " ") (final_segments ev)),
   concat (interim_segments ev)).
Proof. unfold onresult_loop. rewrite fold_onresult_step. reflexivity. Qed.

Lemma recognition_onresult_finalTranscript (ev : RecognitionEvent) (st : State) :
  finalTranscript (recognition_onresult ev st) =
  finalTranscript st ++ concat (map (fun t => t ++ lit " ") (final_segments ev)).
Proof.
  unfold recognition_onresult. rewrite onresult_loop_spec. reflexivity.
Qed.

Lemma recognition_onresult_origArea (ev : RecognitionEvent) (st : State) :
  origArea_value (recognition_onresult ev st) =
  normalize_newlines
    (trim (finalTranscript (recognition_onresult ev st) ++ concat (interim_segments ev))).
Proof.
  unfold recognition_onresult. rewrite onresult_loop_spec. reflexivity.
Qed.

(** C2, as the code has it.  One update appends, for each final result
    from [resultIndex] on and in order, its text and one space to
    [finalTranscript]; the interim text afterwards is the texts of all
    non-final results of this update joined in order, built from the empty
    string on every update, so it never carries over from an earlier
    update: an update whose only non-final result is [t] leaves the interim
    text [t], and non-final "he" followed by a second update with non-final
    "hello" leaves "hello". *)
Theorem onresult_batch (ev : RecognitionEvent) (ft : jsstring) :
  (onresult_loop ev ft).1 = ft ++ concat (map (fun t => t ++ lit " ") (final_segments ev))
  ∧ (onresult_loop ev ft).2 = concat (interim_segments ev)
  ∧ (∀ t, interim_segments ev = [t] → (onresult_loop ev ft).2 = t)
  ∧ (∀ ft0, (onresult_loop {| resultIndex := 0; results := [interim_result "hello"] |}
               (onresult_loop {| resultIndex := 0; results := [interim_result "he"] |} ft0).1).2
            = lit "hello").
Proof.
  rewrite onresult_loop_spec. cbn [fst snd].
  split; [reflexivity|]. split; [reflexivity|]. split.
  - intros t Ht. rewrite Ht. simpl. apply app_nil_r.
  - intros ft0. rewrite !onresult_loop_spec. reflexivity.
Qed.

(** Two non-final results in one update: the interim text is both texts
    joined, not the last one alone. *)
Lemma onresult_two_interim_joined :
  let ev := {| resultIndex := 0;
               results := [interim_result "he"; interim_result "llo"] |} in
  last (interim_segments ev) = Some (lit "llo")
  ∧ (onresult_loop ev []).2 = lit "hello"
  ∧ (onresult_loop ev []).2 ≠ lit "llo".
Proof. vm_compute. split; [reflexivity|]. split; [reflexivity|discriminate]. Qed.

(** An update with the final "hello" and a non-final "wor": the interim
    text is "wor". *)
Lemma onresult_batch_witness :
  (onresult_loop {| resultIndex := 0;
                    results := [final_result "hello"; interim_result "wor"] |} []).2
  = lit "wor".
Proof.
  destruct (onresult_batch
              {| resultIndex := 0; results := [final_result "hello"; interim_result "wor"] |} [])
    as (_ & _ & Hone & _).
  apply Hone. reflexivity.
Defined.

Lemma deliver_app (st : State) (us vs : list RecognitionEvent) :
  deliver st (us ++ vs) = deliver (deliver st us) vs.
Proof. unfold deliver. apply fold_left_app. Qed.

Lemma deliver_finalTranscript (us : list RecognitionEvent) (st : State) :
  finalTranscript (deliver st us) =
  finalTranscript st ++ concat (map (fun t => t ++ lit " ") (concat (map final_segments us))).
Proof.
  revert st. induction us as [|u us IH]; intros st.
  - simpl. symmetry. apply app_nil_r.
  - change (deliver st (u :: us)) with (deliver (recognition_onresult u st) us).
    rewrite IH, recognition_onresult_finalTranscript. simpl.
    rewrite map_app, concat_app, <- app_assoc. reflexivity.
Qed.

(** C5, as the code has it.  Over the updates of one session whose final
    segments are "hello" then "world", in order and whatever interim
    results come with them, [finalTranscript] ends as "hello world " and
    its trimmed value as "hello world".  The displayed text is that
    transcript followed by the interim text of the latest update, trimmed
    (and read back from the transcript area): it is "hello world" when the
    latest update carries no interim text. *)
Theorem hello_world_transcript (st : State) (us : list RecognitionEvent)
    (u : RecognitionEvent) :
  finalTranscript st = [] →
  concat (map final_segments (us ++ [u])) = [lit "hello"; lit "world"] →
  let st' := deliver st (us ++ [u]) in
  finalTranscript st' = lit "hello world "
  ∧ trim (finalTranscript st') = lit "hello world"
  ∧ origArea_value st'
    = normalize_newlines (trim (lit "hello world " ++ concat (interim_segments u)))
  ∧ (concat (interim_segments u) = [] → origArea_value st' = lit "hello world").
Proof.
  intros Hstart Hsegments st'.
  assert (Hft : finalTranscript st' = lit "hello world ").
  { unfold st'. rewrite deliver_finalTranscript, Hstart, Hsegments. reflexivity. }
  assert (Hshown : origArea_value st' =
                   normalize_newlines
                     (trim (lit "hello world " ++ concat (interim_segments u)))).
  { rewrite <- Hft. unfold st'. rewrite deliver_app.
    apply recognition_onresult_origArea. }
  split; [exact Hft|]. split; [rewrite Hft; reflexivity|].
  split; [exact Hshown|].
  intros Hinterim. rewrite Hshown, Hinterim. reflexivity.
Qed.

(** A session that hears "he", then "hello" for good, then "wor", then
    "world" for good. *)
Lemma hello_world_transcript_witness :
  let st' := deliver (startBtn_onclick example_page)
               ([ {| resultIndex := 0; results := [interim_result "he"] |};
                  {| resultIndex := 0; results := [final_result "hello"] |};
                  {| resultIndex := 1; results := [final_result "hello"; interim_result "wor"] |} ]
                ++ [ {| resultIndex := 1; results := [final_result "hello"; final_result "world"] |} ]) in
  finalTranscript st' = lit "hello world " ∧ origArea_value st' = lit "hello world".
Proof.
  intros st'.
  destruct (hello_world_transcript (startBtn_onclick example_page)
              [ {| resultIndex := 0; results := [interim_result "he"] |};
                {| resultIndex := 0; results := [final_result "hello"] |};
                {| resultIndex := 1; results := [final_result "hello"; interim_result "wor"] |} ]
              {| resultIndex := 1; results := [final_result "hello"; final_result "world"] |})
    as (Hft & _ & _ & Hshown).
  - reflexivity.
  - vm_compute. reflexivity.
  - split; [exact Hft|]. apply Hshown. reflexivity.
Defined.

(** The final segments are "hello" then "world", yet the displayed text is
    not "hello world": the update that confirms "world" also carries the
    interim text of what is said next, or an interim result stands before
    the final one in the same update. *)
Lemma hello_world_displayed_with_interim :
  let after := [ {| resultIndex := 0; results := [final_result "hello"] |};
                 {| resultIndex := 1;
                    results := [final_result "hello"; final_result "world";
                                interim_result "how"] |} ] in
  let between := [ {| resultIndex := 0; results := [final_result "hello"] |};
                   {| resultIndex := 1;
                      results := [final_result "hello"; interim_result "wor";
                                  final_result "world"] |} ] in
  (concat (map final_segments after) = [lit "hello"; lit "world"]
   ∧ finalTranscript (deliver (startBtn_onclick example_page) after) = lit "hello world "
   ∧ origArea_value (deliver (startBtn_onclick example_page) after) = lit "hello world how"
   ∧ origArea_value (deliver (startBtn_onclick example_page) after) ≠ lit "hello world")
  ∧ (concat (map final_segments between) = [lit "hello"; lit "world"]
   ∧ origArea_value (deliver (startBtn_onclick example_page) between) = lit "hello world wor"
   ∧ origArea_value (deliver (startBtn_onclick example_page) between) ≠ lit "hello world").
Proof.
  vm_compute.
  repeat match goal with |- _ ∧ _ => split end; try reflexivity; discriminate.
Qed.

(** ** The transcript only grows *)

Lemma sendForTranslation_begin_finalTranscript (text : jsstring) (st : State) :
  finalTranscript (sendForTranslation_begin text st) = finalTranscript st.
Proof. reflexivity. Qed.

Lemma sendForTranslation_resume_finalTranscript (o : FetchOutcome) (st : State) :
  finalTranscript (sendForTranslation_resume o st) = finalTranscript st.
Proof.
  unfold sendForTranslation_resume.
  destruct o as [j|err]; [destruct (truthy (field (error j)))|]; reflexivity.
Qed.

Lemma recognition_onend_finalTranscript (st : State) :
  finalTranscript (recognition_onend st) = finalTranscript st.
Proof.
  unfold recognition_onend.
  case_if; reflexivity.
Qed.

Lemma speakText_finalTranscript (text lang : jsstring) (st : State) :
  finalTranscript (speakText text lang st) = finalTranscript st.
Proof.
  destruct (speechSynthesis st) eqn:Hsynth; through_speakText Hsynth; reflexivity.
Qed.

Lemma playBtn_onclick_finalTranscript (st : State) :
  finalTranscript (playBtn_onclick st) = finalTranscript st.
Proof.
  unfold playBtn_onclick.
  case_if; [reflexivity | apply speakText_finalTranscript].
Qed.

Lemma stopBtn_onclick_finalTranscript (st : State) :
  finalTranscript (stopBtn_onclick st) = finalTranscript st.
Proof. unfold stopBtn_onclick. destruct (recognition st); reflexivity. Qed.

Lemma startBtn_onclick_finalTranscript (st : State) :
  finalTranscript (startBtn_onclick st) = [].
Proof. unfold startBtn_onclick. simpl. destruct (recognition st); reflexivity. Qed.

(** Every event but a click on the start control leaves the old transcript
    at the front of the new one. *)
Lemma dispatch_finalTranscript_prefix (st : State) (e : Event) :
  e ≠ ClickStart → finalTranscript st `prefix_of` finalTranscript (dispatch st e).
Proof.
  intros He. destruct e; simpl; try congruence.
  - destruct (stopBtn_disabled st); [|rewrite stopBtn_onclick_finalTranscript]; reflexivity.
  - destruct (playBtn_disabled st); [|rewrite playBtn_onclick_finalTranscript]; reflexivity.
  - unfold when_recognition. destruct (recognition st); [|reflexivity].
    rewrite recognition_onresult_finalTranscript. apply prefix_app_r. reflexivity.
  - unfold when_recognition. destruct (recognition st); reflexivity.
  - unfold when_recognition. destruct (recognition st); [|reflexivity].
    rewrite recognition_onend_finalTranscript. reflexivity.
  - destruct (pending st); [|rewrite sendForTranslation_resume_finalTranscript]; reflexivity.
  - reflexivity.
  - reflexivity.
  - reflexivity.
  - destruct (speechSynthesis st); reflexivity.
  - destruct (speechSynthesis st); reflexivity.
Qed.

(** C6. [finalTranscript] is append-only within a session: every event
    other than the click that starts a capture leaves its previous value as
    a prefix of the new one, whatever handler runs (and so does every run
    of such events); [startBtn.onclick] resets it to the empty string, and
    it is the only operation after which a transcript that was not empty
    is. *)
Theorem finalTranscript_append_only (st : State) :
  (∀ e, e ≠ ClickStart → finalTranscript st `prefix_of` finalTranscript (dispatch st e))
  ∧ (∀ evs, ClickStart ∉ evs → finalTranscript st `prefix_of` finalTranscript (run st evs))
  ∧ finalTranscript (startBtn_onclick st) = []
  ∧ (∀ e, finalTranscript st ≠ [] → finalTranscript (dispatch st e) = [] → e = ClickStart).
Proof.
  split; [intros e; apply dispatch_finalTranscript_prefix|].
  split.
  { intros evs. revert st. induction evs as [|e evs IH]; intros st Hevs.
    - reflexivity.
    - simpl. etrans.
      + apply (dispatch_finalTranscript_prefix st e).
        intros ->. apply Hevs. left.
      + apply IH. intros Hin. apply Hevs. right. exact Hin. }
  split; [apply startBtn_onclick_finalTranscript|].
  intros e Hne Hempty.
  assert (Hgrows : e ≠ ClickStart → False).
  { intros Hstart.
    destruct (dispatch_finalTranscript_prefix st e Hstart) as [k Hk].
    rewrite Hempty in Hk. symmetry in Hk. apply app_eq_nil in Hk.
    destruct Hk as [Hk _]. contradiction. }
  destruct e; try reflexivity; exfalso; apply Hgrows; discriminate.
Qed.

(** After the final "hello", an update that confirms "world" keeps "hello "
    at the front. *)
Lemma finalTranscript_append_only_witness :
  let st := run example_page
              [ClickStart;
               RecognitionResult {| resultIndex := 0; results := [final_result "hello"] |}] in
  let e := RecognitionResult
             {| resultIndex := 1; results := [final_result "hello"; final_result "world"] |} in
  finalTranscript st = lit "hello "
  ∧ finalTranscript st `prefix_of` finalTranscript (dispatch st e).
Proof.
  intros st e. split; [reflexivity|].
  apply (proj1 (finalTranscript_append_only st)). discriminate.
Defined.

(** ** Translation calls *)

Lemma sendForTranslation_begin_display (text : jsstring) (st : State) :
  translatedDiv_textContent (sendForTranslation_begin text st) = working_placeholder
  ∧ playBtn_disabled (sendForTranslation_begin text st) = true.
Proof. split; reflexivity. Qed.

Lemma speakText_playBtn (text lang : jsstring) (st : State) :
  playBtn_disabled (speakText text lang st) = playBtn_disabled st.
Proof.
  destruct (speechSynthesis st) eqn:Hsynth; through_speakText Hsynth; reflexivity.
Qed.

Lemma startBtn_onclick_playBtn (st : State) :
  playBtn_disabled (startBtn_onclick st) = playBtn_disabled st.
Proof. unfold startBtn_onclick. simpl. destruct (recognition st); reflexivity. Qed.

Lemma startBtn_onclick_display (st : State) :
  translatedDiv_textContent (startBtn_onclick st) = working_placeholder.
Proof. unfold startBtn_onclick. simpl. destruct (recognition st); reflexivity. Qed.

Lemma recognition_onend_playBtn (st : State) :
  playBtn_disabled st = true → playBtn_disabled (recognition_onend st) = true.
Proof.
  intros Hoff. unfold recognition_onend.
  case_if; [reflexivity | exact Hoff].
Qed.

(** Only a settlement that completes a translation successfully turns the
    playback control on. *)
Lemma dispatch_playBtn_disabled (st : State) (e : Event) :
  successful e = false →
  playBtn_disabled st = true → playBtn_disabled (dispatch st e) = true.
Proof.
  intros He Hoff. destruct e; simpl.
  - destruct (startBtn_disabled st); [|rewrite startBtn_onclick_playBtn]; exact Hoff.
  - destruct (stopBtn_disabled st); [exact Hoff|].
    unfold stopBtn_onclick. destruct (recognition st); exact Hoff.
  - rewrite Hoff. exact Hoff.
  - unfold when_recognition. destruct (recognition st); [|exact Hoff].
    unfold recognition_onresult. destruct (onresult_loop ev (finalTranscript st)). exact Hoff.
  - unfold when_recognition. destruct (recognition st); exact Hoff.
  - unfold when_recognition. destruct (recognition st); [|exact Hoff].
    apply recognition_onend_playBtn, Hoff.
  - destruct (pending st); [exact Hoff|].
    unfold sendForTranslation_resume. destruct o as [j|err]; [|exact Hoff].
    simpl in He. apply negb_false_iff in He. rewrite He. exact Hoff.
  - exact Hoff.
  - exact Hoff.
  - exact Hoff.
  - destruct (speechSynthesis st); exact Hoff.
  - destruct (speechSynthesis st); exact Hoff.
Qed.

Lemma run_playBtn_disabled (evs : list Event) (st : State) :
  Forall (fun e => successful e = false) evs →
  playBtn_disabled st = true → playBtn_disabled (run st evs) = true.
Proof.
  revert st. induction evs as [|e evs IH]; intros st Hevs Hoff; [exact Hoff|].
  inversion Hevs as [|? ? He Hrest]; subst. simpl.
  apply IH; [exact Hrest|]. apply dispatch_playBtn_disabled; assumption.
Qed.

(** C3, as the code has it.  Each translate call leaves the display showing
    the working placeholder and the playback control disabled, and the
    control stays disabled in every state reached from there by events
    among which no translation completes successfully.  Starting a capture
    shows the working placeholder too, so the text translated in the
    session before is no longer on display; it never turns the playback
    control on, and from a state where the control is disabled it stays
    disabled through the new session until a translation completes
    successfully. *)
Theorem playback_disabled_until_success (st : State) (text : jsstring)
    (evs : list Event) :
  Forall (fun e => successful e = false) evs →
  (translatedDiv_textContent (sendForTranslation_begin text st) = working_placeholder
   ∧ playBtn_disabled (sendForTranslation_begin text st) = true
   ∧ playBtn_disabled (run (sendForTranslation_begin text st) evs) = true)
  ∧ (translatedDiv_textContent (startBtn_onclick st) = working_placeholder
   ∧ (playBtn_disabled st = true →
      playBtn_disabled (startBtn_onclick st) = true
      ∧ playBtn_disabled (run (startBtn_onclick st) evs) = true)).
Proof.
  intros Hevs.
  destruct (sendForTranslation_begin_display text st) as [Hshown Hbegin].
  split; [split; [exact Hshown|split; [exact Hbegin|]]|split].
  - apply run_playBtn_disabled; assumption.
  - apply startBtn_onclick_display.
  - intros Hoff. rewrite <- (startBtn_onclick_playBtn st) in Hoff.
    split; [exact Hoff|]. apply run_playBtn_disabled; assumption.
Qed.

(** A translation is requested for "hello"; the service answers with an
    error, the user starts and stops another capture, a second request
    fails in transport: the playback control is off all along. *)
Lemma playback_disabled_until_success_witness :
  let evs := [ TranslationSettled (Body {| error := Some (lit "E"); detail := Some (lit "bad");
                                         translated := None |});
               ClickPlay; ClickStart;
               RecognitionResult {| resultIndex := 0; results := [final_result "hola"] |};
               ClickStop; RecognitionEnd;
               TranslationSettled (Rejected (lit "TypeError: Failed to fetch")) ] in
  playBtn_disabled (run (sendForTranslation_begin (lit "hello") example_page) evs) = true.
Proof.
  intros evs.
  destruct (playback_disabled_until_success example_page (lit "hello") evs)
    as [(_ & _ & Hrun) _]; [|exact Hrun].
  unfold evs. repeat constructor.
Defined.

(** Starting a capture after a translation that succeeded: the display
    shows the working placeholder, the playback control is still enabled,
    and a click on it speaks the placeholder. *)
Lemma startCapture_leaves_playback_enabled :
  let st := run example_page
              [ ClickStart;
                RecognitionResult {| resultIndex := 0; results := [final_result "hello"] |};
                ClickStop; RecognitionEnd;
                TranslationSettled (Body {| error := None; detail := None;
                                            translated := Some (lit "hola") |}) ] in
  translatedDiv_textContent st = lit "hola"
  ∧ startBtn_disabled st = false
  ∧ translatedDiv_textContent (startBtn_onclick st) = working_placeholder
  ∧ playBtn_disabled (startBtn_onclick st) = false
  ∧ playBtn_disabled (startBtn_onclick st) ≠ true
  ∧ map utter_text (utterances (dispatch (dispatch st ClickStart) ClickPlay))
    = [working_placeholder].
Proof.
  vm_compute.
  repeat match goal with |- _ ∧ _ => split end; try reflexivity; discriminate.
Qed.

(** ** Translation responses *)

(** A response with an error indicator and a failure in transport leave
    the playback control as they find it. *)
Lemma sendForTranslation_resume_error_playBtn (j : ResponseBody) (st : State) :
  truthy (field (error j)) = true →
  playBtn_disabled (sendForTranslation_resume (Body j) st) = playBtn_disabled st.
Proof. intros Herr. unfold sendForTranslation_resume. rewrite Herr. reflexivity. Qed.

Lemma sendForTranslation_resume_rejected_playBtn (err : jsstring) (st : State) :
  playBtn_disabled (sendForTranslation_resume (Rejected err) st) = playBtn_disabled st.
Proof. reflexivity. Qed.

(** From the start of a translate call, as long as no translation
    completes successfully, the playback control is disabled. *)
Lemma awaited_call_playBtn (text : jsstring) (st : State) (evs : list Event) :
  Forall (fun e => successful e = false) evs →
  playBtn_disabled (run (sendForTranslation_begin text st) evs) = true.
Proof. intros Hevs. apply run_playBtn_disabled; [exact Hevs | reflexivity]. Qed.

(** C4, as the code has it.  A response without an error indicator (no
    [error] field, or an empty one) sets the displayed translation to the
    returned [translated] value, or to "(no translation)" when that value
    is empty or missing, and enables the playback control.  A response with
    an error indicator sets the displayed text to "Error: " followed by the
    [detail] field, or by the [error] code when there is no detail, and
    leaves the playback control as it is: the control remains disabled
    when no translation has completed successfully since the call started,
    whatever else happened in between. *)
Theorem translation_response (j : ResponseBody) (text : jsstring) (st : State)
    (evs : list Event) :
  Forall (fun e => successful e = false) evs →
  (truthy (field (error j)) = false →
     translatedDiv_textContent (sendForTranslation_resume (Body j) st)
       = value_or (translated j) (lit "(no translation)")
     ∧ playBtn_disabled (sendForTranslation_resume (Body j) st) = false
     ∧ playBtn_disabled (sendForTranslation text (Body j) st) = false)
  ∧ (truthy (field (error j)) = true →
     translatedDiv_textContent (sendForTranslation_resume (Body j) st)
       = lit "Error: " ++ value_or (detail j) (value_or (error j) [])
     ∧ playBtn_disabled (sendForTranslation_resume (Body j) st) = playBtn_disabled st
     ∧ playBtn_disabled (sendForTranslation text (Body j) st) = true
     ∧ playBtn_disabled
         (sendForTranslation_resume (Body j) (run (sendForTranslation_begin text st) evs))
       = true).
Proof.
  intros Hevs. split; intros Herr.
  - unfold sendForTranslation, sendForTranslation_resume. rewrite Herr.
    cbn. rewrite toString_or_else_field. auto.
  - split; [|split; [|split]].
    + unfold sendForTranslation_resume. rewrite Herr. cbn. f_equal.
      destruct j as [[[|c e]|] [[|c' d]|] t]; simpl in *; congruence.
    + apply sendForTranslation_resume_error_playBtn, Herr.
    + unfold sendForTranslation.
      rewrite (sendForTranslation_resume_error_playBtn j _ Herr). reflexivity.
    + rewrite (sendForTranslation_resume_error_playBtn j _ Herr).
      apply awaited_call_playBtn, Hevs.
Qed.

(** [{translated: "hola"}] enables playback and displays "hola";
    [{error: "E", detail: "bad"}] displays "Error: bad" and leaves playback
    disabled, also when the user has started and stopped another capture
    while the call was awaited. *)
Lemma translation_response_witness :
  let hola := {| error := None; detail := None; translated := Some (lit "hola") |} in
  let bad := {| error := Some (lit "E"); detail := Some (lit "bad"); translated := None |} in
  let evs := [ ClickStart; ClickStop; RecognitionEnd ] in
  (translatedDiv_textContent
     (sendForTranslation_resume (Body hola) (sendForTranslation_begin (lit "hello") example_page))
   = lit "hola"
   ∧ playBtn_disabled (sendForTranslation (lit "hello") (Body hola) example_page) = false)
  ∧ (translatedDiv_textContent
       (sendForTranslation_resume (Body bad) (sendForTranslation_begin (lit "hello") example_page))
     = lit "Error: bad"
     ∧ playBtn_disabled
         (sendForTranslation_resume (Body bad)
            (run (sendForTranslation_begin (lit "hello") example_page) evs)) = true).
Proof.
  intros hola bad evs.
  assert (Hevs : Forall (fun e => successful e = false) evs) by (repeat constructor).
  split.
  - destruct (proj1 (translation_response hola (lit "hello")
                       (sendForTranslation_begin (lit "hello") example_page) evs Hevs))
      as (Htext & _ & _); [reflexivity|].
    destruct (proj1 (translation_response hola (lit "hello") example_page evs Hevs))
      as (_ & _ & Hplay); [reflexivity|].
    split; [exact Htext | exact Hplay].
  - destruct (proj2 (translation_response bad (lit "hello")
                       (sendForTranslation_begin (lit "hello") example_page) evs Hevs))
      as (Htext & _ & _ & _); [reflexivity|].
    destruct (proj2 (translation_response bad (lit "hello") example_page evs Hevs))
      as (_ & _ & _ & Hplay); [reflexivity|].
    split; [exact Htext | exact Hplay].
Defined.

(** Two captures end one after the other, so two translate calls are
    awaited; the first is answered with a translation, the second with an
    error: the error message is displayed and the playback control is
    enabled, so a click on it speaks the error message. *)
Lemma error_response_after_success :
  let st := run example_page
              [ ClickStart;
                RecognitionResult {| resultIndex := 0; results := [final_result "hello"] |};
                RecognitionEnd;
                ClickStart;
                RecognitionResult {| resultIndex := 0; results := [final_result "bye"] |};
                RecognitionEnd;
                TranslationSettled (Body {| error := None; detail := None;
                                            translated := Some (lit "hola") |});
                TranslationSettled (Body {| error := Some (lit "E");
                                            detail := Some (lit "bad");
                                            translated := None |}) ] in
  map req_text (translation_requests st) = [lit "hello"; lit "bye"]
  ∧ translatedDiv_textContent st = lit "Error: bad"
  ∧ playBtn_disabled st = false
  ∧ playBtn_disabled st ≠ true
  ∧ map utter_text (utterances (dispatch st ClickPlay)) = [lit "Error: bad"].
Proof.
  vm_compute.
  repeat match goal with |- _ ∧ _ => split end; try reflexivity; discriminate.
Qed.

(** ["Network error: ..."] and ["Error: ..."] differ in their first
    character. *)
Lemma network_error_not_service_error (err msg : jsstring) :
  lit "Network error: " ++ err ≠ lit "Error: " ++ msg.
Proof. cbn. discriminate. Qed.

(** C7, as the code has it.  A translate call that ends in transport
    failure ([fetch] or the reading of the body rejects) displays
    "Network error: " followed by the description of the failure.  No
    service error message is equal to it.  The failure leaves the playback
    control as it is: the control remains disabled when no translation has
    completed successfully since the call started, whatever else happened
    in between. *)
Theorem transport_failure (err text : jsstring) (st : State) (evs : list Event) :
  Forall (fun e => successful e = false) evs →
  translatedDiv_textContent (sendForTranslation_resume (Rejected err) st)
    = lit "Network error: " ++ err
  ∧ (∀ j st', truthy (field (error j)) = true →
       translatedDiv_textContent (sendForTranslation_resume (Rejected err) st)
       ≠ translatedDiv_textContent (sendForTranslation_resume (Body j) st'))
  ∧ playBtn_disabled (sendForTranslation_resume (Rejected err) st) = playBtn_disabled st
  ∧ playBtn_disabled (sendForTranslation text (Rejected err) st) = true
  ∧ playBtn_disabled
      (sendForTranslation_resume (Rejected err) (run (sendForTranslation_begin text st) evs))
    = true.
Proof.
  intros Hevs.
  split; [reflexivity|]. split; [|split; [reflexivity|split; [reflexivity|]]].
  - intros j st' Herr.
    unfold sendForTranslation_resume at 2. rewrite Herr.
    apply network_error_not_service_error.
  - rewrite sendForTranslation_resume_rejected_playBtn.
    apply awaited_call_playBtn, Hevs.
Qed.

(** A failed fetch is told apart from the service's [{error: "E"}], and
    playback is disabled after it although an earlier call was answered
    with an error meanwhile. *)
Lemma transport_failure_witness :
  let failed := Rejected (lit "TypeError: Failed to fetch") in
  let evs := [ TranslationSettled (Body {| error := Some (lit "E"); detail := None;
                                          translated := None |}) ] in
  translatedDiv_textContent (sendForTranslation_resume failed example_page)
  ≠ translatedDiv_textContent
      (sendForTranslation_resume
         (Body {| error := Some (lit "E"); detail := None; translated := None |})
         example_page)
  ∧ playBtn_disabled
      (sendForTranslation_resume failed
         (run (sendForTranslation_begin (lit "hello") example_page) evs)) = true.
Proof.
  intros failed evs.
  assert (Hevs : Forall (fun e => successful e = false) evs) by (repeat constructor).
  destruct (transport_failure (lit "TypeError: Failed to fetch") (lit "hello")
              example_page evs Hevs) as (_ & Hdistinct & _ & _ & Hplay).
  split; [|exact Hplay]. apply Hdistinct. reflexivity.
Defined.

(** Two translate calls are awaited; the first is answered with a
    translation, the second fails in transport: the network error is
    displayed and the playback control is enabled. *)
Lemma transport_failure_after_success :
  let st := run example_page
              [ ClickStart;
                RecognitionResult {| resultIndex := 0; results := [final_result "hello"] |};
                RecognitionEnd;
                ClickStart;
                RecognitionResult {| resultIndex := 0; results := [final_result "bye"] |};
                RecognitionEnd;
                TranslationSettled (Body {| error := None; detail := None;
                                            translated := Some (lit "hola") |});
                TranslationSettled (Rejected (lit "TypeError: Failed to fetch")) ] in
  map req_text (translation_requests st) = [lit "hello"; lit "bye"]
  ∧ translatedDiv_textContent st = lit "Network error: TypeError: Failed to fetch"
  ∧ playBtn_disabled st = false
  ∧ playBtn_disabled st ≠ true.
Proof.
  vm_compute.
  repeat match goal with |- _ ∧ _ => split end; try reflexivity; discriminate.
Qed.

(** C10, as the code has it.  A response whose [error] field is truthy
    takes the error branch whatever its [translated] field holds: the
    resulting state is the one the same response without [translated]
    gives, the displayed text is the error message, and the playback
    control is left as it was, so it stays disabled when no translation
    has completed successfully since the call started.  A response whose
    [error] field is the empty string is handled as a success: the
    translation (or its placeholder) is displayed and the playback control
    enabled. *)
Theorem error_field_decides (e : jsstring) (d t : option jsstring)
    (text : jsstring) (st : State) (evs : list Event) :
  Forall (fun ev => successful ev = false) evs →
  (e ≠ [] →
     sendForTranslation_resume (Body {| error := Some e; detail := d; translated := t |}) st
       = sendForTranslation_resume (Body {| error := Some e; detail := d; translated := None |}) st
     ∧ translatedDiv_textContent
         (sendForTranslation_resume (Body {| error := Some e; detail := d; translated := t |}) st)
       = lit "Error: " ++ value_or d e
     ∧ playBtn_disabled
         (sendForTranslation_resume (Body {| error := Some e; detail := d; translated := t |}) st)
       = playBtn_disabled st
     ∧ playBtn_disabled
         (sendForTranslation text (Body {| error := Some e; detail := d; translated := t |}) st)
       = true
     ∧ playBtn_disabled
         (sendForTranslation_resume (Body {| error := Some e; detail := d; translated := t |})
            (run (sendForTranslation_begin text st) evs))
       = true)
  ∧ (translatedDiv_textContent
       (sendForTranslation_resume (Body {| error := Some []; detail := d; translated := t |}) st)
     = value_or t (lit "(no translation)")
     ∧ playBtn_disabled
         (sendForTranslation_resume (Body {| error := Some []; detail := d; translated := t |}) st)
       = false).
Proof.
  intros Hevs. split.
  - intros He. destruct e as [|c e]; [contradiction|].
    split; [reflexivity|]. split; [|split; [reflexivity|split; [reflexivity|]]].
    + unfold sendForTranslation_resume. cbn.
      destruct d as [[|c' d]|]; reflexivity.
    + rewrite sendForTranslation_resume_error_playBtn by reflexivity.
      apply awaited_call_playBtn, Hevs.
  - unfold sendForTranslation_resume. cbn [error field truthy].
    cbn. rewrite toString_or_else_field. split; reflexivity.
Qed.

(** [{error: "E", translated: "hola"}] shows the error and never "hola",
    and playback is disabled after it. *)
Lemma error_field_decides_witness :
  let both := Body {| error := Some (lit "E"); detail := None;
                      translated := Some (lit "hola") |} in
  translatedDiv_textContent
    (sendForTranslation_resume both (sendForTranslation_begin (lit "hello") example_page))
  = lit "Error: E"
  ∧ playBtn_disabled
      (sendForTranslation_resume both
         (run (sendForTranslation_begin (lit "hello") example_page) [ClickPlay; ClickStart]))
    = true.
Proof.
  intros both.
  assert (Hevs : Forall (fun ev => successful ev = false) [ClickPlay; ClickStart])
    by (repeat constructor).
  destruct (proj1 (error_field_decides (lit "E") None (Some (lit "hola")) (lit "hello")
                     (sendForTranslation_begin (lit "hello") example_page) [] (List.Forall_nil _)))
    as (_ & Htext & _); [discriminate|].
  destruct (proj1 (error_field_decides (lit "E") None (Some (lit "hola")) (lit "hello")
                     example_page [ClickPlay; ClickStart] Hevs))
    as (_ & _ & _ & _ & Hplay); [discriminate|].
  split; [exact Htext | exact Hplay].
Defined.

(** Two translate calls are awaited; the first is answered with a
    translation, the second with a body that has both an [error] and a
    [translated] field: the error is displayed, the second translation is
    not, and the playback control is enabled. *)
Lemma error_field_after_success :
  let st := run example_page
              [ ClickStart;
                RecognitionResult {| resultIndex := 0; results := [final_result "hello"] |};
                RecognitionEnd;
                ClickStart;
                RecognitionResult {| resultIndex := 0; results := [final_result "bye"] |};
                RecognitionEnd;
                TranslationSettled (Body {| error := None; detail := None;
                                            translated := Some (lit "hola") |});
                TranslationSettled (Body {| error := Some (lit "E"); detail := None;
                                            translated := Some (lit "adios") |}) ] in
  map req_text (translation_requests st) = [lit "hello"; lit "bye"]
  ∧ translatedDiv_textContent st = lit "Error: E"
  ∧ playBtn_disabled st = false
  ∧ playBtn_disabled st ≠ true.
Proof.
  vm_compute.
  repeat match goal with |- _ ∧ _ => split end; try reflexivity; discriminate.
Qed.

(** ** The locale table *)

(** The mapping never yields a falsy value, so the [|| "en-US"] that
    follows its call in [startBtn.onclick] never applies. *)
Lemma mapLangCode_truthy (code : jsstring) : truthy (mapLangCode code) = true.
Proof. apply or_else_truthy. reflexivity. Qed.

Lemma mapLangCode_other (code : jsstring) :
  code ∉ [lit "en"; lit "es"; lit "hi"; lit "ta"] →
  code ∉ Object_prototype_properties →
  mapLangCode code = VString (lit "en-US").
Proof.
  intros Hown Hinherited. unfold mapLangCode, get.
  cbn [own_property mapLangCode_map].
  repeat (case_bool_decide as Hkey;
          [ try reflexivity; subst code; exfalso; apply Hown; rewrite !elem_of_cons; tauto | clear Hkey ]).
  rewrite bool_decide_false by exact Hinherited. reflexivity.
Qed.

(** The table on the codes it is written for.  [mapLangCode] gives en-US
    for en, es-ES for es, hi-IN for hi, ta-IN for ta, en-US for auto, and
    the default en-US for every other input that is not the name of a
    property an object literal inherits from [Object.prototype]; what it
    gives is never falsy.  When the recognition provider exists,
    [startBtn.onclick] sets the recognition locale to this mapping of the
    selected source language. *)
Theorem mapLangCode_locale (code : jsstring) (st : State) :
  is_Some (recognition st) →
  (mapLangCode (lit "en") = VString (lit "en-US")
   ∧ mapLangCode (lit "es") = VString (lit "es-ES")
   ∧ mapLangCode (lit "hi") = VString (lit "hi-IN")
   ∧ mapLangCode (lit "ta") = VString (lit "ta-IN")
   ∧ mapLangCode (lit "auto") = VString (lit "en-US"))
  ∧ (code ∉ [lit "en"; lit "es"; lit "hi"; lit "ta"] →
     code ∉ Object_prototype_properties →
     mapLangCode code = VString (lit "en-US"))
  ∧ truthy (mapLangCode code) = true
  ∧ rec_lang <$> recognition (startBtn_onclick st)
    = Some (mapLangCode (sourceLang_value st)).
Proof.
  intros [r Hrec].
  split; [repeat split; vm_compute; reflexivity|].
  split; [apply mapLangCode_other|].
  split; [apply mapLangCode_truthy|].
  unfold startBtn_onclick. cbn. rewrite Hrec. cbn.
  unfold or_else at 1. rewrite mapLangCode_truthy. reflexivity.
Qed.

(** With "fr" selected, a new capture listens in en-US. *)
Lemma mapLangCode_locale_witness :
  mapLangCode (lit "fr") = VString (lit "en-US")
  ∧ rec_lang <$> recognition (startBtn_onclick (set_sourceLang_value (lit "fr") example_page))
    = Some (VString (lit "en-US")).
Proof.
  destruct (mapLangCode_locale (lit "fr") (set_sourceLang_value (lit "fr") example_page))
    as (_ & Hother & _ & Hstart).
  - eexists. reflexivity.
  - assert (Hfr : mapLangCode (lit "fr") = VString (lit "en-US")).
    { apply Hother.
      - rewrite !not_elem_of_cons. repeat split; try discriminate. apply not_elem_of_nil.
      - unfold Object_prototype_properties.
        rewrite !not_elem_of_cons. repeat split; try discriminate. apply not_elem_of_nil. }
    split; [exact Hfr|]. rewrite Hstart. cbn [sourceLang_value set_sourceLang_value].
    rewrite Hfr. reflexivity.
Defined.


(** ** Playback *)

(** The utterance a click on the playback control builds. *)
Lemma playBtn_onclick_speaks (st : State) (synth : SpeechSynthesis) :
  speechSynthesis st = Some synth →
  translatedDiv_textContent st ≠ [] →
  let u := {| utter_text := translatedDiv_textContent st;
              utter_voice := find_voice (voices synth) (targetLang_value st);
              utter_rate := 1%Z |} in
  effects (playBtn_onclick st) = effects st ++ [CallSynthesisCancel; CallSynthesisSpeak u]
  ∧ speechSynthesis (playBtn_onclick st) = Some {| voices := voices synth; queue := [u] |}
  ∧ translatedDiv_textContent (playBtn_onclick st) = translatedDiv_textContent st
  ∧ targetLang_value (playBtn_onclick st) = targetLang_value st.
Proof.
  intros Hsynth Htext u. unfold playBtn_onclick.
  destruct (translatedDiv_textContent st) as [|c t] eqn:Ht; [contradiction|].
  cbn [or_else truthy negb toString].
  through_speakText Hsynth.
  rewrite <- app_assoc. auto.
Qed.

(** No handler but [speakText] changes the queue, and [speakText] leaves
    one utterance in it. *)
Lemma dispatch_utterances (st : State) (e : Event) :
  (length (utterances st) ≤ 1)%nat → (length (utterances (dispatch st e)) ≤ 1)%nat.
Proof.
  intros Hone. destruct e; simpl.
  - destruct (startBtn_disabled st); [exact Hone|].
    unfold startBtn_onclick. cbn. destruct (recognition st); exact Hone.
  - destruct (stopBtn_disabled st); [exact Hone|].
    unfold stopBtn_onclick. destruct (recognition st); exact Hone.
  - destruct (playBtn_disabled st); [exact Hone|].
    unfold playBtn_onclick. case_if; [exact Hone|].
    unfold utterances in *.
    destruct (speechSynthesis st) eqn:Hsynth; through_speakText Hsynth; lia.
  - unfold when_recognition. destruct (recognition st); [|exact Hone].
    unfold recognition_onresult. destruct (onresult_loop ev (finalTranscript st)). exact Hone.
  - unfold when_recognition. destruct (recognition st); exact Hone.
  - unfold when_recognition. destruct (recognition st); [|exact Hone].
    unfold recognition_onend. case_if; exact Hone.
  - destruct (pending st); [exact Hone|].
    unfold sendForTranslation_resume.
    destruct o as [j|err]; [destruct (truthy (field (error j)))|]; exact Hone.
  - exact Hone.
  - exact Hone.
  - exact Hone.
  - unfold utterances in *.
    destruct (speechSynthesis st) as [synth|] eqn:Hsynth; cbn; rewrite ?Hsynth; exact Hone.
  - unfold utterances in *.
    destruct (speechSynthesis st) as [synth|] eqn:Hsynth; cbn; rewrite ?Hsynth; [|exact Hone].
    destruct (queue synth); cbn in *; lia.
Qed.

(** C9. A playback invocation that speaks (there is a synthesis provider
    and the displayed translation is not empty) calls [cancel] and then
    [speak], in that order and nothing else: whatever the provider was
    holding, its queue is the new utterance alone afterwards.  Two
    invocations in succession make the calls cancel, speak, cancel, speak
    and leave the second utterance alone in the queue; and once at most one
    utterance is held, no run of events leaves more than one. *)
Theorem playback_cancels_first (st : State) (synth : SpeechSynthesis) :
  speechSynthesis st = Some synth →
  translatedDiv_textContent st ≠ [] →
  let u := {| utter_text := translatedDiv_textContent st;
              utter_voice := find_voice (voices synth) (targetLang_value st);
              utter_rate := 1%Z |} in
  effects (playBtn_onclick st) = effects st ++ [CallSynthesisCancel; CallSynthesisSpeak u]
  ∧ utterances (playBtn_onclick st) = [u]
  ∧ effects (playBtn_onclick (playBtn_onclick st))
    = effects st ++ [CallSynthesisCancel; CallSynthesisSpeak u;
                     CallSynthesisCancel; CallSynthesisSpeak u]
  ∧ utterances (playBtn_onclick (playBtn_onclick st)) = [u]
  ∧ (∀ evs, (length (utterances (run (playBtn_onclick st) evs)) ≤ 1)%nat).
Proof.
  intros Hsynth Htext u.
  destruct (playBtn_onclick_speaks st synth Hsynth Htext) as (Hcalls & Hqueue & Hsame & Hlang).
  fold u in Hcalls, Hqueue.
  assert (Htext' : translatedDiv_textContent (playBtn_onclick st) ≠ [])
    by (rewrite Hsame; exact Htext).
  destruct (playBtn_onclick_speaks _ _ Hqueue Htext') as (Hcalls' & Hqueue' & _).
  cbn [voices] in Hcalls', Hqueue'. rewrite Hsame, Hlang in Hcalls', Hqueue'.
  fold u in Hcalls', Hqueue'.
  split; [exact Hcalls|].
  split; [unfold utterances; rewrite Hqueue; reflexivity|].
  split; [rewrite Hcalls', Hcalls, <- app_assoc; reflexivity|].
  split; [unfold utterances; rewrite Hqueue'; reflexivity|].
  assert (Hstart : (length (utterances (playBtn_onclick st)) ≤ 1)%nat)
    by (unfold utterances; rewrite Hqueue; cbn; lia).
  intros evs. revert Hstart. generalize (playBtn_onclick st).
  induction evs as [|e evs IH]; intros s Hs; [exact Hs|].
  simpl. apply IH, dispatch_utterances, Hs.
Qed.

(** Two clicks on the playback control while "hola" is displayed and an
    earlier utterance is still in the queue. *)
Lemma playback_cancels_first_witness :
  let earlier := {| utter_text := lit "adios"; utter_voice := None; utter_rate := 1%Z |} in
  let monica := {| voiceURI := lit "Monica"; voice_lang := lit "es-ES" |} in
  let st := set_speechSynthesis (Some {| voices := [monica]; queue := [earlier] |})
              (set_translatedDiv_textContent (lit "hola") example_page) in
  utterances (playBtn_onclick (playBtn_onclick st))
  = [ {| utter_text := lit "hola"; utter_voice := Some monica; utter_rate := 1%Z |} ].
Proof.
  intros earlier monica st.
  destruct (playback_cancels_first st {| voices := [monica]; queue := [earlier] |})
    as (_ & _ & _ & Htwice & _).
  - reflexivity.
  - discriminate.
  - exact Htwice.
Defined.

(** ** Worked examples *)

Example mapLangCode_hi : mapLangCode (lit "hi") = VString (lit "hi-IN").
Proof. vm_compute. reflexivity. Qed.

Example mapLangCode_fr : mapLangCode (lit "fr") = VString (lit "en-US").
Proof. vm_compute. reflexivity. Qed.

Example trim_example : trim (lit "  hello world ") = lit "hello world".
Proof. vm_compute. reflexivity. Qed.

Example normalize_newlines_example :
  normalize_newlines [0x61; 0x0D; 0x0A; 0x62; 0x0D; 0x63] = [0x61; 0x0A; 0x62; 0x0A; 0x63].
Proof. reflexivity. Qed.

(** One whole session: capture "hello world", translate, play. *)
Example session_example :
  let st := run example_page
              [ ClickStart;
                RecognitionResult {| resultIndex := 0; results := [interim_result "he"] |};
                RecognitionResult {| resultIndex := 0; results := [final_result "hello"] |};
                RecognitionResult {| resultIndex := 1;
                                     results := [final_result "hello"; final_result "world"] |};
                ClickStop; RecognitionEnd;
                TranslationSettled (Body {| error := None; detail := None;
                                            translated := Some (lit "hola mundo") |});
                ClickPlay ] in
  finalTranscript st = lit "hello world "
  ∧ origArea_value st = lit "hello world"
  ∧ translatedDiv_textContent st = lit "hola mundo"
  ∧ translation_requests st
    = [ {| req_text := lit "hello world"; req_source := lit "en"; req_target := lit "es" |} ]
  ∧ map utter_text (utterances st) = [lit "hola mundo"]
  ∧ pending st = 0%nat.
Proof. vm_compute. repeat split. Qed.

(** Without the Web Speech API the start control is disabled for good. *)
Example unsupported_example :
  let st := run (main_js false example_page) [ClickStart; RecognitionEnd] in
  startBtn_disabled st = true ∧ recognition st = None ∧ finalTranscript st = [].
Proof. vm_compute. repeat split. Qed.

(** * Further properties of the script *)

(** ** What [trim] leaves *)

Lemma trimStart_unchanged (c : N) (s : jsstring) :
  isWhiteSpace c = false → trimStart (c :: s) = c :: s.
Proof. intros Hc. simpl. rewrite Hc. reflexivity. Qed.

Lemma trimStart_head (s : jsstring) :
  trimStart s = [] ∨ ∃ c r, trimStart s = c :: r ∧ isWhiteSpace c = false.
Proof.
  induction s as [|a s IH]; [left; reflexivity|].
  simpl. destruct (isWhiteSpace a) eqn:Ha; [exact IH|].
  right. exists a, s. split; [reflexivity | exact Ha].
Qed.

Lemma trimStart_snoc (l : jsstring) (c : N) :
  isWhiteSpace c = false → trimStart (l ++ [c]) = trimStart l ++ [c].
Proof.
  intros Hc. induction l as [|a l IH]; simpl.
  - rewrite Hc. reflexivity.
  - destruct (isWhiteSpace a); [exact IH | reflexivity].
Qed.

Lemma trimEnd_cons (c : N) (s : jsstring) :
  isWhiteSpace c = false → trimEnd (c :: s) = c :: trimEnd s.
Proof.
  intros Hc. unfold trimEnd. simpl rev at 2.
  rewrite trimStart_snoc by exact Hc. rewrite rev_app_distr. reflexivity.
Qed.

Lemma trimEnd_last (s : jsstring) :
  trimEnd s = [] ∨ ∃ r d, trimEnd s = r ++ [d] ∧ isWhiteSpace d = false.
Proof.
  unfold trimEnd. destruct (trimStart_head (rev s)) as [Hnil | (d & r & Hs & Hd)].
  - left. rewrite Hnil. reflexivity.
  - right. exists (rev r), d. rewrite Hs. split; [reflexivity | exact Hd].
Qed.

(** A trimmed string is empty, or begins and ends with a character that is
    not white space. *)
Lemma trim_ends (s : jsstring) :
  trim s = []
  ∨ ∃ c m d, isWhiteSpace c = false ∧ isWhiteSpace d = false
             ∧ (trim s = [c] ∧ c = d ∨ trim s = c :: m ++ [d]).
Proof.
  unfold trim. destruct (trimStart_head s) as [Hnil | (c & r & Hs & Hc)].
  - left. rewrite Hnil. reflexivity.
  - right. rewrite Hs, (trimEnd_cons c r Hc).
    destruct (trimEnd_last r) as [Hr | (m & d & Hr & Hd)]; rewrite Hr.
    + exists c, [], c. auto.
    + exists c, m, d. auto.
Qed.

Lemma trim_fixed_single (c : N) : isWhiteSpace c = false → trim [c] = [c].
Proof. intros Hc. unfold trim, trimEnd. simpl. rewrite Hc. simpl. rewrite Hc. reflexivity. Qed.

Lemma trim_fixed (c d : N) (m : jsstring) :
  isWhiteSpace c = false → isWhiteSpace d = false →
  trim (c :: m ++ [d]) = c :: m ++ [d].
Proof.
  intros Hc Hd. unfold trim. rewrite (trimStart_unchanged c _ Hc).
  unfold trimEnd.
  assert (Hrev : rev (c :: m ++ [d]) = d :: rev (c :: m)).
  { change (c :: m ++ [d]) with ((c :: m) ++ [d]). apply rev_unit. }
  rewrite Hrev, (trimStart_unchanged d _ Hd), <- Hrev. apply rev_involutive.
Qed.

Lemma trim_idempotent (s : jsstring) : trim (trim s) = trim s.
Proof.
  destruct (trim_ends s) as [Hs | (c & m & d & Hc & Hd & [[Hs _] | Hs])]; rewrite Hs.
  - reflexivity.
  - apply trim_fixed_single, Hc.
  - apply trim_fixed; assumption.
Qed.

Lemma not_white_space_newline (c : N) :
  isWhiteSpace c = false → (c =? 0x000D) = false ∧ (c =? 0x000A) = false.
Proof.
  unfold isWhiteSpace, white_space_code_units. cbn [existsb].
  rewrite !orb_false_iff. tauto.
Qed.

Lemma normalize_newlines_cons (c : N) (s : jsstring) :
  isWhiteSpace c = false → normalize_newlines (c :: s) = c :: normalize_newlines s.
Proof.
  intros Hc. destruct (not_white_space_newline c Hc) as [Hcr _].
  simpl. rewrite Hcr. reflexivity.
Qed.

Lemma normalize_newlines_snoc (d : N) (l : jsstring) :
  isWhiteSpace d = false →
  normalize_newlines (l ++ [d]) = normalize_newlines l ++ [d].
Proof.
  intros Hd. destruct (not_white_space_newline d Hd) as [Hcr Hlf].
  remember (length l) as n eqn:Hn.
  assert (Hle : (length l ≤ n)%nat) by lia. clear Hn.
  revert l Hle. induction n as [|n IH]; intros l Hle.
  - destruct l; [|simpl in Hle; lia]. simpl. rewrite Hcr. reflexivity.
  - destruct l as [|c r]; [simpl; rewrite Hcr; reflexivity|].
    simpl in Hle.
    destruct r as [|c' r'].
    + cbn. destruct (c =? 13); rewrite ?Hlf, Hcr; reflexivity.
    + simpl in Hle.
      assert (Hr' : normalize_newlines (r' ++ [d]) = normalize_newlines r' ++ [d])
        by (apply IH; lia).
      assert (Hr : normalize_newlines ((c' :: r') ++ [d])
                   = normalize_newlines (c' :: r') ++ [d])
        by (apply IH; simpl; lia).
      change (((c :: c' :: r') ++ [d])) with (c :: (c' :: r') ++ [d]).
      cbn [normalize_newlines]. cbn [normalize_newlines] in Hr.
      cbn [app] in *.
      destruct (c =? 13); destruct (c' =? 10); cbn [app];
        rewrite ?Hr', ?Hr; reflexivity.
Qed.

(** Reading a trimmed text back from the transcript area gives a trimmed
    text again. *)
Lemma trim_normalize_trim (s : jsstring) :
  trim (normalize_newlines (trim s)) = normalize_newlines (trim s).
Proof.
  destruct (trim_ends s) as [Hs | (c & m & d & Hc & Hd & [[Hs _] | Hs])]; rewrite Hs.
  - reflexivity.
  - rewrite (normalize_newlines_cons c [] Hc). apply trim_fixed_single, Hc.
  - rewrite (normalize_newlines_cons c _ Hc), (normalize_newlines_snoc d m Hd).
    apply trim_fixed; assumption.
Qed.

(** ** What the page sends *)

(** X2. After a recognition update the displayed transcript has no white
    space around it, so a capture that ends before the user edits it sends
    exactly the text on display (and sends nothing when the display is
    empty). *)
Theorem onend_sends_displayed_text (ev : RecognitionEvent) (st : State) :
  let st' := recognition_onresult ev st in
  trim (origArea_value st') = origArea_value st'
  ∧ (origArea_value st' ≠ [] →
     translation_requests (recognition_onend st')
     = translation_requests st' ++ [ {| req_text := origArea_value st';
                                        req_source := sourceLang_value st;
                                        req_target := targetLang_value st |} ])
  ∧ (origArea_value st' = [] →
     translation_requests (recognition_onend st') = translation_requests st').
Proof.
  intros st'.
  assert (Htrimmed : trim (origArea_value st') = origArea_value st').
  { unfold st'. rewrite recognition_onresult_origArea. apply trim_normalize_trim. }
  assert (Hsource : sourceLang_value st' = sourceLang_value st
                    ∧ targetLang_value st' = targetLang_value st).
  { unfold st', recognition_onresult.
    destruct (onresult_loop ev (finalTranscript st)). split; reflexivity. }
  destruct Hsource as [Hsource Htarget].
  split; [exact Htrimmed|].
  unfold recognition_onend. cbn [origArea_value set_stopBtn_disabled set_startBtn_disabled].
  rewrite Htrimmed. split; intros Hshown.
  - apply truthy_VString in Hshown. rewrite Hshown.
    unfold sendForTranslation_begin, translation_requests. cbn.
    rewrite omap_app, Hsource, Htarget. reflexivity.
  - rewrite Hshown. reflexivity.
Qed.

(** The recognizer hears " hello " for good: "hello" is displayed and
    sent. *)
Lemma onend_sends_displayed_text_witness :
  let st' := recognition_onresult
               {| resultIndex := 0; results := [final_result " hello "] |}
               (startBtn_onclick example_page) in
  origArea_value st' = lit "hello"
  ∧ translation_requests (recognition_onend st')
    = [ {| req_text := lit "hello"; req_source := lit "en"; req_target := lit "es" |} ].
Proof.
  intros st'. split; [reflexivity|].
  destruct (onend_sends_displayed_text
              {| resultIndex := 0; results := [final_result " hello "] |}
              (startBtn_onclick example_page)) as (_ & Hsent & _).
  apply Hsent. vm_compute. discriminate.
Defined.

(** Case analysis over the handler an event runs. *)
Ltac unfold_handlers :=
  unfold when_recognition, startBtn_onclick, stopBtn_onclick, playBtn_onclick,
    recognition_onresult, recognition_onerror, recognition_onend,
    sendForTranslation_resume, sendForTranslation_begin, speakText,
    speechSynthesis_speak, speechSynthesis_cancel, origArea_assign.

Ltac case_handlers :=
  cbn; unfold_handlers; cbn;
  repeat (match goal with
          | |- context [match ?x with _ => _ end] => destruct x eqn:?; cbn
          end).

(** One event adds at most one request to the log, and only a capture that
    ends adds one: a well formed one. *)
Lemma dispatch_translation_requests (st : State) (e : Event) :
  translation_requests (dispatch st e) = translation_requests st
  ∨ (e = RecognitionEnd
     ∧ ∃ r, translation_requests (dispatch st e) = translation_requests st ++ [r]
            ∧ well_formed_request r).
Proof.
  destruct e; try (left; destruct st; unfold translation_requests; case_handlers;
                   rewrite ?omap_app; cbn; rewrite ?app_nil_r; reflexivity).
  simpl. unfold when_recognition. destruct (recognition st); [|left; reflexivity].
  unfold recognition_onend.
  cbn [origArea_value set_stopBtn_disabled set_startBtn_disabled].
  destruct (truthy (VString (trim (origArea_value st)))) eqn:Htext; [|left; reflexivity].
  right. split; [reflexivity|]. eexists. split.
  - unfold sendForTranslation_begin, translation_requests. cbn.
    rewrite omap_app. reflexivity.
  - split; cbn; [apply truthy_VString, Htext | apply trim_idempotent].
Qed.

(** X1. Whatever events the page goes through, the requests already made
    stay as they are at the front of the log, every request added after
    them carries a text that is not empty and has no white space around it
    ([sendForTranslation] is only ever called on such a text), and no more
    requests are added than captures end: at most one per event. *)
Theorem requests_well_formed (st : State) (evs : list Event) :
  ∃ added,
    translation_requests (run st evs) = translation_requests st ++ added
    ∧ Forall well_formed_request added
    ∧ (length added ≤ capture_ends evs)%nat
    ∧ (length added ≤ length evs)%nat.
Proof.
  revert st. induction evs as [|e evs IH]; intros st.
  - exists []. cbn. rewrite app_nil_r. repeat split; [constructor | lia | lia].
  - destruct (IH (dispatch st e)) as (added & Hlog & Hwf & Hends & Hlen).
    change (run st (e :: evs)) with (run (dispatch st e) evs).
    destruct (dispatch_translation_requests st e) as [Hsame | (-> & r & Hadd & Hr)].
    + exists added. rewrite Hlog, Hsame.
      unfold capture_ends in *. cbn [List.filter length].
      destruct (is_capture_end e); cbn [length]; repeat split; try assumption; lia.
    + exists (r :: added). rewrite Hlog, Hadd, <- app_assoc.
      unfold capture_ends in *. cbn [List.filter is_capture_end length app].
      repeat split; [constructor; assumption | lia | lia].
Qed.

(** ** The controls *)

Lemma dispatch_never_both_enabled (st : State) (e : Event) :
  startBtn_disabled st || stopBtn_disabled st = true →
  startBtn_disabled (dispatch st e) || stopBtn_disabled (dispatch st e) = true.
Proof.
  intros Hone. destruct st. cbn in Hone.
  destruct e; case_handlers; cbn in *; try reflexivity; try congruence;
    try (rewrite orb_true_r; reflexivity).
Qed.

(** X3. The start and the stop control are never enabled together: from a
    page where at least one of them is disabled, no run of events reaches a
    state where both can be clicked. *)
Theorem never_both_enabled (st : State) (evs : list Event) :
  startBtn_disabled st || stopBtn_disabled st = true →
  startBtn_disabled (run st evs) || stopBtn_disabled (run st evs) = true.
Proof.
  revert st. induction evs as [|e evs IH]; intros st Hone; [exact Hone|].
  simpl. apply IH, dispatch_never_both_enabled, Hone.
Qed.

Lemma never_both_enabled_witness :
  let st := run example_page
              [ ClickStart; ClickStart; ClickStop; RecognitionEnd; ClickStop; ClickStart ] in
  startBtn_disabled st || stopBtn_disabled st = true.
Proof. intros st. apply (never_both_enabled example_page). reflexivity. Defined.

(** While the start control is disabled, only the end of the capture can
    enable it, and [start()] is not called. *)
Lemma dispatch_start_disabled (st : State) (e : Event) :
  e ≠ RecognitionEnd → startBtn_disabled st = true →
  startBtn_disabled (dispatch st e) = true
  ∧ recognition_starts (dispatch st e) = recognition_starts st.
Proof.
  intros He Hoff. destruct st. cbn in Hoff. subst.
  destruct e; try congruence; unfold recognition_starts; case_handlers;
    rewrite ?List.filter_app, ?length_app; cbn; split; try reflexivity; lia.
Qed.

(** A click that calls [start()] disables the start control. *)
Lemma dispatch_start_enabled (st : State) (e : Event) :
  e ≠ RecognitionEnd →
  recognition_starts (dispatch st e) = recognition_starts st
  ∨ (recognition_starts (dispatch st e) = S (recognition_starts st)
     ∧ startBtn_disabled (dispatch st e) = true).
Proof.
  intros He. destruct st.
  destruct e; try congruence; unfold recognition_starts; case_handlers;
    rewrite ?List.filter_app, ?length_app; cbn;
    try (left; lia); right; split; [lia | reflexivity].
Qed.

Lemma run_start_disabled (evs : list Event) (st : State) :
  RecognitionEnd ∉ evs → startBtn_disabled st = true →
  recognition_starts (run st evs) = recognition_starts st.
Proof.
  revert st. induction evs as [|e evs IH]; intros st Hevs Hoff; [reflexivity|].
  apply not_elem_of_cons in Hevs. destruct Hevs as [He Hevs].
  destruct (dispatch_start_disabled st e) as [Hoff' Hsame]; [congruence | exact Hoff |].
  simpl. rewrite IH by assumption. exact Hsame.
Qed.

(** X4. A capture is never started twice without having ended: over any
    run of events in which no capture ends, [recognition.start()] is called
    at most once, and not at all when the start control is disabled at the
    beginning. *)
Theorem start_at_most_once (st : State) (evs : list Event) :
  RecognitionEnd ∉ evs →
  (recognition_starts (run st evs) ≤ S (recognition_starts st))%nat
  ∧ (startBtn_disabled st = true →
     recognition_starts (run st evs) = recognition_starts st).
Proof.
  intros Hevs. split; [|apply run_start_disabled, Hevs].
  revert st. induction evs as [|e evs IH]; intros st; [simpl; lia|].
  apply not_elem_of_cons in Hevs. destruct Hevs as [He Hevs].
  simpl. destruct (dispatch_start_enabled st e) as [Hsame | [Hone Hoff]]; [congruence | |].
  - rewrite <- Hsame. apply IH, Hevs.
  - rewrite (run_start_disabled evs _ Hevs Hoff). lia.
Qed.

(** Clicking start again and again, with updates and a stop in between,
    starts one capture. *)
Lemma start_at_most_once_witness :
  (recognition_starts
     (run example_page
        [ ClickStart; ClickStart;
          RecognitionResult {| resultIndex := 0; results := [final_result "hello"] |};
          ClickStop; ClickStart ]) ≤ 1)%nat.
Proof.
  apply (start_at_most_once example_page).
  rewrite !not_elem_of_cons. repeat split; try discriminate. apply not_elem_of_nil.
Defined.

Lemma dispatch_stop_disabled (st : State) (e : Event) :
  e ≠ ClickStart → stopBtn_disabled st = true →
  stopBtn_disabled (dispatch st e) = true
  ∧ recognition_stops (dispatch st e) = recognition_stops st.
Proof.
  intros He Hoff. destruct st. cbn in Hoff. subst.
  destruct e; try congruence; unfold recognition_stops; case_handlers;
    rewrite ?List.filter_app, ?length_app; cbn; split; try reflexivity; lia.
Qed.

Lemma dispatch_stop_enabled (st : State) (e : Event) :
  e ≠ ClickStart →
  recognition_stops (dispatch st e) = recognition_stops st
  ∨ (recognition_stops (dispatch st e) = S (recognition_stops st)
     ∧ stopBtn_disabled (dispatch st e) = true).
Proof.
  intros He. destruct st.
  destruct e; try congruence; unfold recognition_stops; case_handlers;
    rewrite ?List.filter_app, ?length_app; cbn;
    try (left; lia); right; split; [lia | reflexivity].
Qed.

Lemma run_stop_disabled (evs : list Event) (st : State) :
  ClickStart ∉ evs → stopBtn_disabled st = true →
  recognition_stops (run st evs) = recognition_stops st.
Proof.
  revert st. induction evs as [|e evs IH]; intros st Hevs Hoff; [reflexivity|].
  apply not_elem_of_cons in Hevs. destruct Hevs as [He Hevs].
  destruct (dispatch_stop_disabled st e) as [Hoff' Hsame]; [congruence | exact Hoff |].
  simpl. rewrite IH by assumption. exact Hsame.
Qed.

(** X5. The stop control guards against a double stop: a second click in a
    row changes nothing, and over any run of events in which no capture is
    started [recognition.stop()] is called at most once (not at all when
    the stop control is disabled at the beginning). *)
Theorem stop_at_most_once (st : State) (evs : list Event) :
  ClickStart ∉ evs →
  dispatch (dispatch st ClickStop) ClickStop = dispatch st ClickStop
  ∧ (recognition_stops (run st evs) ≤ S (recognition_stops st))%nat
  ∧ (stopBtn_disabled st = true →
     recognition_stops (run st evs) = recognition_stops st).
Proof.
  intros Hevs. split; [|split; [|apply run_stop_disabled, Hevs]].
  - destruct st. case_handlers; cbn in *; congruence.
  - revert st. induction evs as [|e evs IH]; intros st; [simpl; lia|].
    apply not_elem_of_cons in Hevs. destruct Hevs as [He Hevs].
    simpl. destruct (dispatch_stop_enabled st e) as [Hsame | [Hone Hoff]]; [congruence | |].
    + rewrite <- Hsame. apply IH, Hevs.
    + rewrite (run_stop_disabled evs _ Hevs Hoff). lia.
Qed.

(** A capture is running; the user clicks stop three times. *)
Lemma stop_at_most_once_witness :
  (recognition_stops
     (run (dispatch example_page ClickStart)
          [ ClickStop; ClickStop; RecognitionEnd; ClickStop ]) ≤ 1)%nat.
Proof.
  apply (stop_at_most_once (dispatch example_page ClickStart)).
  rewrite !not_elem_of_cons. repeat split; try discriminate. apply not_elem_of_nil.
Defined.

(** ** Without the Web Speech API *)

Lemma dispatch_unsupported (st : State) (e : Event) :
  recognition st = None → startBtn_disabled st = true →
  recognition (dispatch st e) = None
  ∧ startBtn_disabled (dispatch st e) = true
  ∧ stopBtn_disabled (dispatch st e) = stopBtn_disabled st
  ∧ finalTranscript (dispatch st e) = finalTranscript st
  ∧ translation_requests (dispatch st e) = translation_requests st
  ∧ recognition_starts (dispatch st e) = recognition_starts st
  ∧ recognition_stops (dispatch st e) = recognition_stops st.
Proof.
  intros Hnone Hoff. destruct st. cbn in Hnone, Hoff. subst.
  unfold translation_requests, recognition_starts, recognition_stops.
  destruct e; case_handlers;
    rewrite ?omap_app, ?List.filter_app, ?length_app; cbn;
    rewrite ?app_nil_r, ?Nat.add_0_r; repeat split; reflexivity.
Qed.

(** X6. On a browser without the Web Speech API the script disables the
    start control and warns once; after that, whatever the user clicks or
    types, the start control stays disabled, the stop control stays as the
    markup has it, the transcript stays empty, and the page makes no call
    to a recognition provider and no translation request. *)
Theorem unsupported_page_is_inert (page : State) (evs : list Event) :
  effects (main_js false page) = effects page ++ [CallAlert unsupported_message]
  ∧ recognition (run (main_js false page) evs) = None
  ∧ startBtn_disabled (run (main_js false page) evs) = true
  ∧ stopBtn_disabled (run (main_js false page) evs) = stopBtn_disabled page
  ∧ finalTranscript (run (main_js false page) evs) = []
  ∧ translation_requests (run (main_js false page) evs) = translation_requests page
  ∧ recognition_starts (run (main_js false page) evs) = recognition_starts page
  ∧ recognition_stops (run (main_js false page) evs) = recognition_stops page.
Proof.
  split; [reflexivity|].
  assert (Hrun : ∀ st,
    recognition st = None → startBtn_disabled st = true →
    recognition (run st evs) = None
    ∧ startBtn_disabled (run st evs) = true
    ∧ stopBtn_disabled (run st evs) = stopBtn_disabled st
    ∧ finalTranscript (run st evs) = finalTranscript st
    ∧ translation_requests (run st evs) = translation_requests st
    ∧ recognition_starts (run st evs) = recognition_starts st
    ∧ recognition_stops (run st evs) = recognition_stops st).
  { induction evs as [|e evs IH]; intros st Hnone Hoff; [repeat split; assumption|].
    destruct (dispatch_unsupported st e Hnone Hoff)
      as (Hnone' & Hoff' & Hstop & Hft & Hreq & Hstarts & Hstops).
    simpl. rewrite <- Hstop, <- Hft, <- Hreq, <- Hstarts, <- Hstops.
    apply IH; assumption. }
  destruct (Hrun (main_js false page)) as (H1 & H2 & H3 & H4 & H5 & H6 & H7);
    [reflexivity | reflexivity |].
  rewrite H1, H2, H3, H4, H5, H6, H7.
  unfold translation_requests, recognition_starts, recognition_stops. cbn.
  rewrite omap_app, !List.filter_app, !length_app. cbn.
  rewrite app_nil_r, !Nat.add_0_r. repeat split; reflexivity.
Qed.

(** ** Playback with nothing to say or nothing to say it with *)

(** X7. A click on the playback control does nothing at all when no
    translated text is displayed; without a synthesis provider it only
    warns: nothing is cancelled and nothing is spoken. *)
Theorem playback_without_text_or_provider (st : State) :
  (translatedDiv_textContent st = [] → playBtn_onclick st = st)
  ∧ (speechSynthesis st = None → translatedDiv_textContent st ≠ [] →
     effects (playBtn_onclick st)
     = effects st ++ [CallAlert (lit "SpeechSynthesis not supported in this browser.")]
     ∧ utterances (playBtn_onclick st) = []
     ∧ translatedDiv_textContent (playBtn_onclick st) = translatedDiv_textContent st
     ∧ playBtn_disabled (playBtn_onclick st) = playBtn_disabled st).
Proof.
  split.
  - intros Hempty. unfold playBtn_onclick. rewrite Hempty. reflexivity.
  - intros Hnone Htext. unfold playBtn_onclick, utterances.
    destruct (translatedDiv_textContent st) as [|c t] eqn:Ht; [contradiction|].
    cbn [or_else truthy negb toString]. unfold speakText. rewrite Hnone. cbn.
    rewrite Hnone, Ht. repeat split; reflexivity.
Qed.

Lemma playback_without_text_or_provider_witness :
  playBtn_onclick example_page = example_page
  ∧ utterances (playBtn_onclick
                  (set_speechSynthesis None
                     (set_translatedDiv_textContent (lit "hola") example_page))) = [].
Proof.
  split.
  - apply (proj1 (playback_without_text_or_provider example_page)). reflexivity.
  - destruct (proj2 (playback_without_text_or_provider
                       (set_speechSynthesis None
                          (set_translatedDiv_textContent (lit "hola") example_page))))
      as (_ & Hnone & _); [reflexivity | discriminate | exact Hnone].
Defined.

(** ** The voice of an utterance *)

Lemma startsWith_prefix (s p : jsstring) : startsWith s p = true ↔ p `prefix_of` s.
Proof.
  revert s. induction p as [|a p IH]; intros s.
  - destruct s; simpl; split; try reflexivity; intros _; apply prefix_nil.
  - destruct s as [|b s]; simpl.
    + split; [discriminate | intros H; apply prefix_nil_not in H; contradiction].
    + rewrite andb_true_iff, N.eqb_eq, IH. split.
      * intros [-> Hp]. apply prefix_cons, Hp.
      * intros H. split; [eapply prefix_cons_inv_1, H | eapply prefix_cons_inv_2, H].
Qed.

Lemma find_first {A : Type} (f : A → bool) (l : list A) :
  match find f l with
  | Some x => ∃ before after, l = before ++ x :: after ∧ f x = true
                              ∧ Forall (fun y => f y = false) before
  | None => Forall (fun y => f y = false) l
  end.
Proof.
  induction l as [|a l IH]; simpl; [constructor|].
  destruct (f a) eqn:Ha.
  - exists [], l. repeat split; [exact Ha | constructor].
  - destruct (find f l) as [x|].
    + destruct IH as (before & after & -> & Hx & Hbefore).
      exists (a :: before), after. repeat split; [exact Hx | constructor; assumption].
    + constructor; assumption.
Qed.

Lemma mapLocaleFromCode_string (code : jsstring) :
  code ∉ Object_prototype_properties →
  mapLocaleFromCode code
  = VString (if bool_decide (code ∈ [lit "en"; lit "es"; lit "hi"; lit "ta"])
             then code else lit "en").
Proof.
  intros Hinherited.
  destruct (bool_decide (code ∈ [lit "en"; lit "es"; lit "hi"; lit "ta"])) eqn:Hin.
  - apply bool_decide_eq_true in Hin. revert Hin.
    rewrite !elem_of_cons, elem_of_nil.
    intros [->|[->|[->|[->|[]]]]]; vm_compute; reflexivity.
  - apply bool_decide_eq_false in Hin. revert Hin.
    rewrite !not_elem_of_cons. intros (Hen & Hes & Hhi & Hta & _).
    unfold mapLocaleFromCode, get. cbn [own_property mapLocaleFromCode_m].
    repeat (case_bool_decide as Hkey;
            [ exfalso; first [congruence | exact (Hinherited Hkey)] | clear Hkey ]).
    reflexivity.
Qed.

(** X8. The utterance gets the first voice, in the order the provider
    reports them, whose locale tag starts with the language prefix of the
    target language (the code itself for en, es, hi and ta, and "en" for
    any other code that is not an inherited property name); every voice
    reported before it fails that test, and when no voice passes it the
    utterance is left with the provider's default voice. *)
Theorem find_voice_first_match (vs : list Voice) (lang : jsstring) :
  lang ∉ Object_prototype_properties →
  let wanted := if bool_decide (lang ∈ [lit "en"; lit "es"; lit "hi"; lit "ta"])
                then lang else lit "en" in
  (∀ x, voice_matches lang x = true ↔ wanted `prefix_of` voice_lang x)
  ∧ match find_voice vs lang with
    | Some v => ∃ before after,
        vs = before ++ v :: after
        ∧ wanted `prefix_of` voice_lang v
        ∧ Forall (fun x => ¬ wanted `prefix_of` voice_lang x) before
    | None => Forall (fun x => ¬ wanted `prefix_of` voice_lang x) vs
    end.
Proof.
  intros Hlang wanted.
  assert (Hwanted : wanted ≠ []).
  { unfold wanted. case_bool_decide as Hin; [|discriminate].
    intros ->. revert Hin. rewrite !elem_of_cons, elem_of_nil.
    intros [H|[H|[H|[H|[]]]]]; discriminate H. }
  assert (Hmatch : ∀ x, voice_matches lang x = true ↔ wanted `prefix_of` voice_lang x).
  { intros x. unfold voice_matches.
    rewrite (mapLocaleFromCode_string lang Hlang). fold wanted. cbn [toString].
    rewrite andb_true_iff, startsWith_prefix, truthy_VString.
    split; [tauto|]. intros Hp. split; [|exact Hp].
    intros Hnil. rewrite Hnil in Hp. apply prefix_nil_inv in Hp. contradiction. }
  split; [exact Hmatch|].
  assert (Hnone : ∀ l, Forall (fun y => voice_matches lang y = false) l →
                       Forall (fun x => ¬ wanted `prefix_of` voice_lang x) l).
  { intros l Hl. eapply Forall_impl; [exact Hl|].
    intros x Hx Hp. apply Hmatch in Hp. congruence. }
  change (find_voice vs lang) with (find (voice_matches lang) vs).
  pose proof (find_first (voice_matches lang) vs) as Hfind.
  destruct (find (voice_matches lang) vs) as [v|].
  - destruct Hfind as (before & after & Hvs & Hv & Hbefore).
    exists before, after. split; [exact Hvs|]. split; [apply Hmatch, Hv | apply Hnone, Hbefore].
  - apply Hnone, Hfind.
Qed.

(** With a German, a Mexican and a Castilian voice, Spanish is spoken by
    the Mexican one; with the target "auto" no voice matches "en". *)
Lemma find_voice_first_match_witness :
  let vs := [ {| voiceURI := lit "Anna"; voice_lang := lit "de-DE" |};
              {| voiceURI := lit "Paulina"; voice_lang := lit "es-MX" |};
              {| voiceURI := lit "Monica"; voice_lang := lit "es-ES" |} ] in
  find_voice vs (lit "es") = Some {| voiceURI := lit "Paulina"; voice_lang := lit "es-MX" |}
  ∧ Forall (fun x => ¬ lit "en" `prefix_of` voice_lang x) vs.
Proof.
  intros vs. split; [reflexivity|].
  assert (Hauto : lit "auto" ∉ Object_prototype_properties).
  { unfold Object_prototype_properties. rewrite !not_elem_of_cons.
    repeat split; try discriminate. apply not_elem_of_nil. }
  exact (proj2 (find_voice_first_match vs (lit "auto") Hauto)).
Defined.

(** X9. The two language tables agree: for every language code that is not
    an inherited property name, the locale [mapLangCode] gives to the
    recognizer starts with the prefix [mapLocaleFromCode] asks of a voice,
    so a voice tagged with the recognition locale of a language is accepted
    for playback in that language. *)
Theorem language_tables_agree (code : jsstring) (x : Voice) :
  code ∉ Object_prototype_properties →
  ∃ locale prefix,
    mapLangCode code = VString locale
    ∧ mapLocaleFromCode code = VString prefix
    ∧ startsWith locale prefix = true
    ∧ (voice_lang x = locale → voice_matches code x = true).
Proof.
  intros Hcode.
  assert (Htables : ∃ locale prefix,
    mapLangCode code = VString locale ∧ mapLocaleFromCode code = VString prefix
    ∧ startsWith locale prefix = true ∧ locale ≠ []).
  { destruct (decide (code ∈ [lit "en"; lit "es"; lit "hi"; lit "ta"])) as [Hin|Hout].
    - revert Hin. rewrite !elem_of_cons, elem_of_nil.
      intros [->|[->|[->|[->|[]]]]]; eexists _, _;
        (split; [vm_compute; reflexivity|]); (split; [vm_compute; reflexivity|]);
        (split; [reflexivity | discriminate]).
    - exists (lit "en-US"), (lit "en").
      split; [apply mapLangCode_other; assumption|].
      split; [|split; [reflexivity | discriminate]].
      rewrite (mapLocaleFromCode_string code Hcode).
      rewrite bool_decide_false by exact Hout. reflexivity. }
  destruct Htables as (locale & prefix & Hlocale & Hprefix & Hstarts & Hne).
  exists locale, prefix. repeat split; try assumption.
  intros Hx. unfold voice_matches. rewrite Hprefix, Hx. cbn [toString].
  rewrite Hstarts, andb_true_r. apply truthy_VString, Hne.
Qed.

Lemma language_tables_agree_witness :
  voice_matches (lit "hi") {| voiceURI := lit "Lekha"; voice_lang := lit "hi-IN" |} = true.
Proof.
  destruct (language_tables_agree (lit "hi")
              {| voiceURI := lit "Lekha"; voice_lang := lit "hi-IN" |})
    as (locale & prefix & Hlocale & _ & _ & Hvoice).
  - unfold Object_prototype_properties. rewrite !not_elem_of_cons.
    repeat split; try discriminate. apply not_elem_of_nil.
  - apply Hvoice. vm_compute in Hlocale. inversion Hlocale. reflexivity.
Defined.

(** ** Translations that settle late or out of order *)

(** X10. Last write wins across sessions: when a new capture is started
    while the translation of the capture before is still awaited, the
    response that arrives during the new capture replaces the working
    placeholder with the earlier session's translation and enables
    playback, although the transcript of the new session is still empty. *)
Theorem late_response_wins (st : State) (j : ResponseBody) :
  is_Some (recognition st) →
  trim (origArea_value st) ≠ [] →
  truthy (field (error j)) = false →
  let st1 := run st [RecognitionEnd; ClickStart] in
  let st2 := dispatch st1 (TranslationSettled (Body j)) in
  translatedDiv_textContent st1 = working_placeholder
  ∧ translatedDiv_textContent st2 = value_or (translated j) (lit "(no translation)")
  ∧ playBtn_disabled st2 = false
  ∧ finalTranscript st2 = []
  ∧ origArea_value st2 = []
  ∧ stopBtn_disabled st2 = false.
Proof.
  intros [r Hrec] Htext Hok st1 st2.
  apply truthy_VString in Htext.
  unfold st2, st1. destruct st. cbn in Hrec, Htext. subst.
  cbn. unfold_handlers. cbn. rewrite Htext. cbn. rewrite Hok. cbn.
  rewrite toString_or_else_field. repeat split; reflexivity.
Qed.

(** The capture of "hello" ends, a new capture starts, and "hola" arrives. *)
Lemma late_response_wins_witness :
  let st := run example_page
              [ ClickStart;
                RecognitionResult {| resultIndex := 0; results := [final_result "hello"] |};
                RecognitionEnd; ClickStart;
                TranslationSettled (Body {| error := None; detail := None;
                                            translated := Some (lit "hola") |}) ] in
  translatedDiv_textContent st = lit "hola" ∧ playBtn_disabled st = false
  ∧ finalTranscript st = [].
Proof.
  intros st.
  destruct (late_response_wins
              (run example_page
                 [ ClickStart;
                   RecognitionResult {| resultIndex := 0; results := [final_result "hello"] |} ])
              {| error := None; detail := None; translated := Some (lit "hola") |})
    as (_ & Htext & Hplay & Hft & _).
  - eexists. reflexivity.
  - vm_compute. discriminate.
  - reflexivity.
  - vm_compute in Htext, Hplay, Hft |- *.
    split; [exact Htext|]. split; [exact Hplay | exact Hft].
Defined.

(** X11. With two translate calls awaited, the display follows the
    settlement that comes last, whatever the first one was, and the
    playback control is enabled as soon as either of them brought a
    translation: after a success followed by an error the error message is
    displayed with playback enabled. *)
Theorem two_settlements (o1 o2 : FetchOutcome) (st : State) :
  let st' := sendForTranslation_resume o2 (sendForTranslation_resume o1 st) in
  translatedDiv_textContent st'
  = translatedDiv_textContent (sendForTranslation_resume o2 st)
  ∧ playBtn_disabled st'
    = playBtn_disabled st && negb (outcome_ok o1) && negb (outcome_ok o2).
Proof.
  destruct st.
  destruct o1 as [j1|e1], o2 as [j2|e2]; cbn; unfold_handlers; cbn;
    try destruct (truthy (field (error j1))); try destruct (truthy (field (error j2)));
    cbn; rewrite ?andb_true_r, ?andb_false_r; split; reflexivity.
Qed.

(** ** Sessions *)

(** X12. The transcript of a session is made of that session alone:
    whatever the page held before the capture was started, after the
    updates of the new capture [finalTranscript] is their final segments in
    order, each followed by one space. *)
Theorem session_transcript (st : State) (us : list RecognitionEvent) :
  finalTranscript (deliver (startBtn_onclick st) us)
  = concat (map (fun t => t ++ lit " ") (concat (map final_segments us))).
Proof.
  rewrite deliver_finalTranscript, startBtn_onclick_finalTranscript. reflexivity.
Qed.

(** X13. An update that brings nothing new ([resultIndex] at or past the
    end of [results]) leaves the transcript as it is and takes the interim
    text off the display, which then shows the trimmed transcript. *)
Theorem update_without_results (ev : RecognitionEvent) (st : State) :
  (length (results ev) ≤ resultIndex ev)%nat →
  finalTranscript (recognition_onresult ev st) = finalTranscript st
  ∧ origArea_value (recognition_onresult ev st)
    = normalize_newlines (trim (finalTranscript st)).
Proof.
  intros Hpast.
  assert (Hfinal : final_segments ev = [] ∧ interim_segments ev = []).
  { unfold final_segments, interim_segments. rewrite drop_ge by exact Hpast.
    split; reflexivity. }
  destruct Hfinal as [Hfinal Hinterim].
  rewrite recognition_onresult_origArea, recognition_onresult_finalTranscript.
  rewrite Hfinal, Hinterim. cbn. rewrite !app_nil_r. split; reflexivity.
Qed.

(** "hello" is final, "wor" is on display; an update pointing past the end
    shows "hello" alone. *)
Lemma update_without_results_witness :
  let st := deliver (startBtn_onclick example_page)
              [ {| resultIndex := 0;
                   results := [final_result "hello"; interim_result "wor"] |} ] in
  origArea_value st = lit "hello wor"
  ∧ origArea_value (recognition_onresult {| resultIndex := 2; results := [] |} st)
    = lit "hello".
Proof.
  intros st. split; [reflexivity|].
  destruct (update_without_results {| resultIndex := 2; results := [] |} st) as [_ Hshown].
  - simpl. lia.
  - rewrite Hshown. reflexivity.
Defined.

(** X14. What the user types into the transcript area during a capture is
    lost at the next recognition update, which rewrites the area from the
    transcript; what is typed after the last update is what the end of the
    capture sends, trimmed. *)
Theorem edit_of_transcript_area (text : jsstring) (ev : RecognitionEvent) (st : State) :
  recognition_onresult ev (dispatch st (EditOrig text)) = recognition_onresult ev st
  ∧ (trim (normalize_newlines text) ≠ [] →
     translation_requests (recognition_onend (dispatch st (EditOrig text)))
     = translation_requests st ++ [ {| req_text := trim (normalize_newlines text);
                                       req_source := sourceLang_value st;
                                       req_target := targetLang_value st |} ]).
Proof.
  split.
  - destruct st. cbn. unfold recognition_onresult, origArea_assign. cbn.
    destruct (onresult_loop ev _). reflexivity.
  - intros Htext. apply truthy_VString in Htext.
    destruct st. unfold dispatch, recognition_onend, origArea_assign.
    cbn -[trim normalize_newlines truthy].
    rewrite Htext. unfold sendForTranslation_begin, translation_requests.
    cbn -[trim normalize_newlines]. rewrite omap_app. reflexivity.
Qed.

(** The recognizer heard "helo"; the user corrects it before the capture
    ends. *)
Lemma edit_of_transcript_area_witness :
  let st := deliver (startBtn_onclick example_page)
              [ {| resultIndex := 0; results := [final_result "helo"] |} ] in
  translation_requests (recognition_onend (dispatch st (EditOrig (lit "hello "))))
  = [ {| req_text := lit "hello"; req_source := lit "en"; req_target := lit "es" |} ].
Proof.
  intros st.
  apply (proj2 (edit_of_transcript_area (lit "hello ")
                  {| resultIndex := 0; results := [] |} st)).
  vm_compute. discriminate.
Defined.

(** ** Recognition errors *)






(** ** After a translation *)

(** X16. No outcome of a translation blocks the page: once a capture has
    ended, and whether its translation then succeeds, is answered with an
    error or fails in transport, the start control is enabled and a click
    on it starts a new capture on an empty transcript. *)
Theorem capture_can_restart (st : State) (o : FetchOutcome) :
  is_Some (recognition st) →
  let st' := run st [RecognitionEnd; TranslationSettled o] in
  startBtn_disabled st' = false
  ∧ recognition_starts (dispatch st' ClickStart) = S (recognition_starts st')
  ∧ finalTranscript (dispatch st' ClickStart) = []
  ∧ origArea_value (dispatch st' ClickStart) = []
  ∧ stopBtn_disabled (dispatch st' ClickStart) = false.
Proof.
  intros [r Hrec] st'. unfold st'. destruct st. cbn in Hrec. subst.
  unfold recognition_starts. case_handlers;
    rewrite ?List.filter_app, ?length_app; cbn; repeat split; try reflexivity; lia.
Qed.

Lemma capture_can_restart_witness :
  let st' := run (set_origArea_value (lit "hello") example_page)
               [ RecognitionEnd;
                 TranslationSettled (Rejected (lit "TypeError: Failed to fetch")) ] in
  translatedDiv_textContent st' = lit "Network error: TypeError: Failed to fetch"
  ∧ startBtn_disabled st' = false
  ∧ finalTranscript (dispatch st' ClickStart) = [].
Proof.
  intros st'. split; [reflexivity|].
  destruct (capture_can_restart (set_origArea_value (lit "hello") example_page)
              (Rejected (lit "TypeError: Failed to fetch")))
    as (Hstart & _ & Hft & _).
  - eexists. reflexivity.
  - split; [exact Hstart | exact Hft].
Defined.

Lemma when_recognition_Some (h : State → State) (st : State) :
  is_Some (recognition st) → when_recognition h st = h st.
Proof. intros [r Hrec]. unfold when_recognition. rewrite Hrec. reflexivity. Qed.

(** The handlers of a capture, written out field by field. *)
Lemma startBtn_onclick_supported (st : State) (r : SpeechRecognition) :
  recognition st = Some r →
  startBtn_onclick st
  = {| finalTranscript := [];
       origArea_value := [];
       translatedDiv_textContent := working_placeholder;
       sourceLang_value := sourceLang_value st;
       targetLang_value := targetLang_value st;
       startBtn_disabled := true;
       stopBtn_disabled := false;
       playBtn_disabled := playBtn_disabled st;
       recognition := Some {| rec_lang := mapLangCode (sourceLang_value st);
                              interimResults := interimResults r;
                              continuous := continuous r |};
       speechSynthesis := speechSynthesis st;
       pending := pending st;
       effects := effects st ++ [CallRecognitionStart] |}.
Proof.
  intros Hrec. unfold startBtn_onclick.
  cbn [recognition set_translatedDiv_textContent origArea_assign set_origArea_value
       set_finalTranscript].
  rewrite Hrec. unfold or_else. rewrite mapLangCode_truthy. reflexivity.
Qed.

Lemma recognition_onresult_fields (ev : RecognitionEvent) (st : State) :
  recognition_onresult ev st
  = {| finalTranscript := (onresult_loop ev (finalTranscript st)).1;
       origArea_value :=
         normalize_newlines (trim ((onresult_loop ev (finalTranscript st)).1
                                   ++ (onresult_loop ev (finalTranscript st)).2));
       translatedDiv_textContent := translatedDiv_textContent st;
       sourceLang_value := sourceLang_value st;
       targetLang_value := targetLang_value st;
       startBtn_disabled := startBtn_disabled st;
       stopBtn_disabled := stopBtn_disabled st;
       playBtn_disabled := playBtn_disabled st;
       recognition := recognition st;
       speechSynthesis := speechSynthesis st;
       pending := pending st;
       effects := effects st |}.
Proof.
  unfold recognition_onresult.
  destruct (onresult_loop ev (finalTranscript st)) as [ft interim]. reflexivity.
Qed.

Lemma recognition_onend_effects (st : State) :
  effects (recognition_onend st)
  = effects st ++ (if truthy (VString (trim (origArea_value st)))
                   then [CallFetch {| req_text := trim (origArea_value st);
                                      req_source := sourceLang_value st;
                                      req_target := targetLang_value st |}]
                   else [])
  ∧ recognition (recognition_onend st) = recognition st
  ∧ origArea_value (recognition_onend st) = origArea_value st.
Proof.
  unfold recognition_onend.
  cbn [origArea_value sourceLang_value targetLang_value set_stopBtn_disabled
       set_startBtn_disabled].
  destruct (truthy (VString (trim (origArea_value st)))).
  - repeat split; reflexivity.
  - rewrite app_nil_r. repeat split; reflexivity.
Qed.

(** X17. The recognition locale is fixed when the capture starts, the
    source language of the request when it ends: if the user selects
    another source language while the capture runs, the recognizer keeps
    the locale of the language selected at the start, and the request for
    the displayed text names the language selected since. *)
Theorem source_language_changed_during_capture
    (st : State) (code : jsstring) (ev : RecognitionEvent) :
  is_Some (recognition st) →
  startBtn_disabled st = false →
  let st' := run st [ClickStart; SelectSource code; RecognitionResult ev; RecognitionEnd] in
  rec_lang <$> recognition st' = Some (mapLangCode (sourceLang_value st))
  ∧ (origArea_value st' ≠ [] →
     translation_requests st'
     = translation_requests st ++ [ {| req_text := origArea_value st';
                                       req_source := code;
                                       req_target := targetLang_value st |} ]).
Proof.
  intros [r Hrec] Hon st'.
  assert (Hst' : st' = recognition_onend
                         (recognition_onresult ev
                            (set_sourceLang_value code (startBtn_onclick st)))).
  { unfold st', run. cbn [fold_left dispatch]. rewrite Hon.
    assert (Hstarted : is_Some (recognition (set_sourceLang_value code (startBtn_onclick st))))
      by (rewrite (startBtn_onclick_supported st r Hrec); eexists; reflexivity).
    rewrite (when_recognition_Some _ _ Hstarted).
    apply when_recognition_Some.
    rewrite recognition_onresult_fields. exact Hstarted. }
  clearbody st'. subst st'.
  destruct (recognition_onend_effects
              (recognition_onresult ev
                 (set_sourceLang_value code (startBtn_onclick st))))
    as (Heffects & Hrecognition & Hshown).
  rewrite Hrecognition, Hshown. unfold translation_requests. rewrite Heffects.
  rewrite recognition_onresult_fields, (startBtn_onclick_supported st r Hrec).
  cbn [recognition origArea_value sourceLang_value targetLang_value effects
       finalTranscript set_sourceLang_value fmap option_fmap option_map rec_lang].
  split; [reflexivity|].
  rewrite trim_normalize_trim. intros Htext. apply truthy_VString in Htext.
  rewrite Htext, !omap_app. cbn [omap list_omap]. rewrite app_nil_r. reflexivity.
Qed.

(** English is selected when the capture starts, Hindi when it ends. *)
Lemma source_language_changed_during_capture_witness :
  let st' := run example_page
               [ ClickStart; SelectSource (lit "hi");
                 RecognitionResult {| resultIndex := 0; results := [final_result "namaste"] |};
                 RecognitionEnd ] in
  rec_lang <$> recognition st' = Some (VString (lit "en-US"))
  ∧ translation_requests st'
    = [ {| req_text := lit "namaste"; req_source := lit "hi"; req_target := lit "es" |} ].
Proof.
  intros st'.
  destruct (source_language_changed_during_capture example_page (lit "hi")
              {| resultIndex := 0; results := [final_result "namaste"] |})
    as [Hlocale Hrequest].
  - eexists. reflexivity.
  - reflexivity.
  - split; [exact Hlocale|]. apply Hrequest. vm_compute. discriminate.
Defined.

(** ** Playback between translations *)

Lemma dispatch_playBtn_enabled (st : State) (e : Event) :
  e ≠ RecognitionEnd →
  playBtn_disabled st = false → playBtn_disabled (dispatch st e) = false.
Proof.
  intros He Hon. destruct st. cbn in Hon. subst.
  destruct e; try congruence; case_handlers; reflexivity.
Qed.

(** X18. Only the end of a capture takes playback away: once the playback
    control is enabled it stays enabled over every run of events in which
    no capture ends, be it a new capture being started, its updates, or the
    late error of another translate call. *)
Theorem playback_enabled_until_capture_ends (st : State) (evs : list Event) :
  RecognitionEnd ∉ evs →
  playBtn_disabled st = false → playBtn_disabled (run st evs) = false.
Proof.
  revert st. induction evs as [|e evs IH]; intros st Hevs Hon; [exact Hon|].
  apply not_elem_of_cons in Hevs. destruct Hevs as [He Hevs].
  simpl. apply IH; [exact Hevs|]. apply dispatch_playBtn_enabled; congruence.
Qed.

(** "hola" was translated; a new capture is started and "bye" is heard. *)
Lemma playback_enabled_until_capture_ends_witness :
  let st := run example_page
              [ ClickStart;
                RecognitionResult {| resultIndex := 0; results := [final_result "hello"] |};
                RecognitionEnd;
                TranslationSettled (Body {| error := None; detail := None;
                                            translated := Some (lit "hola") |}) ] in
  playBtn_disabled
    (run st [ ClickStart;
              RecognitionResult {| resultIndex := 0; results := [final_result "bye"] |};
              ClickStop ]) = false.
Proof.
  intros st. apply (playback_enabled_until_capture_ends st).
  - rewrite !not_elem_of_cons. repeat split; try discriminate. apply not_elem_of_nil.
  - reflexivity.
Defined.
